(** * Sudoku solver: backtracking with forward checking (Sudoku.py)

    A shallow embedding of the solver of [Sudoku.py] and the proofs of the
    properties its specification states.

    - The board (a 9x9 [numpy] array of integers) is a list of rows of [Z];
      reading outside the grid is the [IndexError] of numpy and is [None].
    - A position is a pair of non-negative indices [(row, column)].
    - The domain table (a Python [dict] from positions to lists of values)
      is a [gmap]; a failed lookup is the [KeyError] of Python and is [None].
    - [solve] mutates the board it is given: the model threads the board
      through the search and returns its final state together with the
      answer; it also records every state the board goes through. *)

From stdpp Require Import gmap list sorting.
From Stdlib Require Import ZArith Lia.

#[local] Set Warnings "-clear-no-such-hyp".

Local Open Scope Z_scope.
Local Open Scope nat_scope.

(** ** Data model *)

Abbreviation Position := (nat * nat)%type.
Abbreviation Board := (list (list Z)).
Abbreviation Domains := (gmap (nat * nat) (list Z)).

(** [board.shape[0]] and [board.shape[1]]. *)
Definition shape0 (board : Board) : nat := length board.
Definition shape1 (board : Board) : nat :=
  match board with
  | [] => 0
  | row :: _ => length row
  end.

(** [board[position]] *)
Definition board_get (board : Board) (position : Position) : option Z :=
  board !! position.1 ≫= (λ row, row !! position.2).

(** [board[position] = value]. The solver only writes at positions that
    [np.argwhere] returned, which lie inside the grid. *)
Definition board_set (board : Board) (position : Position) (value : Z) : Board :=
  alter (λ row, <[position.2 := value]> row) position.1 board.

(** All indices of the array, row by row. *)
Definition indices (board : Board) : list Position :=
  r ← seq 0 (shape0 board); c ← seq 0 (shape1 board); [(r, c)].

(** [np.argwhere(board == 0)] *)
Definition argwhere_zero (board : Board) : list Position :=
  filter (λ p, board_get board p = Some 0%Z) (indices board).

(** [0 in board] *)
Definition has_zero (board : Board) : bool :=
  bool_decide (0%Z ∈ concat board).

(** ** Python's [sorted(l, key=...)]: the keys are computed first (a key
    that raises aborts the call), then the list is sorted stably. *)

Fixpoint insert_by {A} (key : A → nat) (x : A) (l : list A) : list A :=
  match l with
  | [] => [x]
  | y :: l' =>
      if decide (key x ≤ key y) then x :: y :: l' else y :: insert_by key x l'
  end.

Definition sort_by {A} (key : A → nat) (l : list A) : list A :=
  foldr (insert_by key) [] l.

Definition sorted_by {A} (key : A → option nat) (l : list A) : option (list A) :=
  keyed ← mapM (λ x, k ← key x; Some (k, x)) l;
  Some (snd <$> sort_by fst keyed).

(** A left fold whose step may raise. *)
Fixpoint foldlM {A B} (f : A → B → option A) (a : A) (l : list B) : option A :=
  match l with
  | [] => Some a
  | x :: l' => a' ← f a x; foldlM f a' l'
  end.

(** ** [is_valid_value] *)

(** One comprehension
    [[cell for cell in cells if board[cell] == value and cell not in conflicts]]. *)
Fixpoint scan (board : Board) (value : Z) (conflicts cells : list Position)
  : option (list Position) :=
  match cells with
  | [] => Some []
  | p :: rest =>
      x ← board_get board p;
      tl ← scan board value conflicts rest;
      Some (if decide (x = value ∧ p ∉ conflicts) then p :: tl else tl)
  end.

Definition row_cells (n row : nat) : list Position := (λ c, (row, c)) <$> seq 0 n.
Definition col_cells (n col : nat) : list Position := (λ r, (r, col)) <$> seq 0 n.
Definition box_cells (start_row start_col : nat) : list Position :=
  r ← seq start_row 3; c ← seq start_col 3; [(r, c)].

Definition is_valid_value (board : Board) (position : Position) (value : Z)
  : option (bool * list Position) :=
  let '(row, col) := position in
  let conflicts := [] in
  found ← scan board value conflicts (row_cells (shape0 board) row);
  let conflicts := conflicts ++ found in
  found ← scan board value conflicts (col_cells (shape1 board) col);
  let conflicts := conflicts ++ found in
  let start_row := row - row mod 3 in
  let start_col := col - col mod 3 in
  found ← scan board value conflicts (box_cells start_row start_col);
  let conflicts := conflicts ++ found in
  Some (bool_decide (length conflicts = 0), conflicts).

(** ** [sorted_values] *)

(** Keys of [{value: 0 for value in values}] in insertion order. *)
Fixpoint dict_keys (seen values : list Z) : list Z :=
  match values with
  | [] => []
  | v :: rest =>
      if decide (v ∈ seen) then dict_keys seen rest
      else v :: dict_keys (v :: seen) rest
  end.

Definition count_affected (domains : Domains) (unassigned : list Position)
    (affected : gmap Z nat) (value : Z) : option (gmap Z nat) :=
  foldlM (λ (affected : gmap Z nat) (u : Position),
            du ← domains !! u;
            Some (if decide (value ∈@{list Z} du)
                  then alter S value affected else affected))
         affected unassigned.

Definition sorted_values (domains : Domains) (unassigned : list Position)
    (position : Position) : option (list Z) :=
  values ← domains !! position;
  let affected : gmap Z nat := list_to_map ((λ v, (v, 0)) <$> values) in
  affected ← foldlM (count_affected domains unassigned) affected values;
  sorted_by (λ v, affected !! v) (dict_keys [] values).

(** ** Neighbour queries, [remove_value], [forward_checking], [get_domains] *)

Definition get_horizontal (position : Position) (unassigned : list Position)
  : list Position :=
  filter (λ u, u.1 = position.1) unassigned.

Definition get_vertical (position : Position) (unassigned : list Position)
  : list Position :=
  filter (λ u, u.2 = position.2) unassigned.

Definition get_box (position : Position) (unassigned : list Position)
  : list Position :=
  let start_row := position.1 - position.1 mod 3 in
  let start_column := position.2 - position.2 mod 3 in
  filter (λ u, (start_row ≤ u.1 ∧ u.1 < start_row + 3) ∧
               (start_column ≤ u.2 ∧ u.2 < start_column + 3)) unassigned.

(** [np.unique(rows, axis=0)]: the distinct rows in lexicographic order. *)
Definition pos_lt (p q : Position) : Prop :=
  p.1 < q.1 ∨ (p.1 = q.1 ∧ p.2 < q.2).

Fixpoint insert_unique (p : Position) (l : list Position) : list Position :=
  match l with
  | [] => [p]
  | q :: l' =>
      if decide (p = q) then l
      else if decide (pos_lt p q) then p :: l
      else q :: insert_unique p l'
  end.

Definition np_unique (l : list Position) : list Position :=
  foldr insert_unique [] l.

Definition remove_value (domains : Domains) (value : Z) (region : list Position)
  : Domains :=
  foldl (λ domains r,
           match domains !! r with
           | Some vs => <[r := filter (λ v, v ≠ value) vs]> domains
           | None => domains
           end)
        domains region.

(** [copy.deepcopy] of an immutable value is the value. *)
Definition forward_checking (domains : Domains) (unassigned : list Position)
    (position : Position) (value : Z) : Domains :=
  remove_value domains value
    (np_unique (get_horizontal position unassigned ++
                get_vertical position unassigned ++
                get_box position unassigned)).

Definition get_domains (board : Board) : Domains :=
  foldl (λ domains pos, <[pos := Z.of_nat <$> seq 1 9]> domains) ∅
        (argwhere_zero board).

(** ** [solve] *)

(** How a call ends: [(board, True)], [(None, False)], an exception, or
    the recursion budget of the model exhausted. *)
Inductive status := Solved | Unsolvable | Raised | OutOfFuel.

#[global] Instance status_eq_dec : EqDecision status.
Proof. solve_decision. Defined.

(** [trace]: the states of the board during the call, oldest first (the
    board at entry and the board after each write); [board_after]: the
    state of the caller's board when the call ends. *)
Record run := Run { trace : list Board; board_after : Board; result : status }.

Definition logged (before : list Board) (r : run) : run :=
  Run (before ++ trace r) (board_after r) (result r).

(** [any(len(new_domains[tuple(d)]) == 0 for d in unassigned)] *)
Fixpoint any_empty (new_domains : Domains) (unassigned : list Position)
  : option bool :=
  match unassigned with
  | [] => Some false
  | d :: rest =>
      match new_domains !! d with
      | None => None
      | Some vs => if decide (length vs = 0) then Some true
                   else any_empty new_domains rest
      end
  end.

Section candidates.
(** The recursive call [solve(board, new_domains)]. *)
Variable solve_rec : Board → Domains → run.
Variable domains : Domains.
Variable unassigned : list Position.
Variable position : Position.

(** The loop [for value in values] of [solve], from the current state
    of the board. *)
Fixpoint try_values (board : Board) (values : list Z) : run :=
  match values with
  | [] => Run [] board Unsolvable
  | value :: rest =>
      match is_valid_value board position value with
      | None => Run [] board Raised
      | Some (false, _) => try_values board rest
      | Some (true, _) =>
          let board1 := board_set board position value in
          let new_domains := forward_checking domains unassigned position value in
          match any_empty new_domains unassigned with
          | None => Run [board1] board1 Raised
          | Some true => logged [board1] (try_values board1 rest)
          | Some false =>
              let r := solve_rec board1 new_domains in
              match result r with
              | Unsolvable =>
                  let board2 := board_set (board_after r) position 0%Z in
                  logged (trace r ++ [board2]) (try_values board2 rest)
              | _ => r
              end
          end
      end
  end.
End candidates.

Fixpoint solve_fuel (fuel : nat) (board : Board) (domains : option Domains) : run :=
  match fuel with
  | 0 => Run [board] board OutOfFuel
  | S fuel' =>
      if negb (has_zero board) then Run [board] board Solved
      else
        let domains := match domains with
                       | None => get_domains board
                       | Some d => d
                       end in
        let unassigned := argwhere_zero board in
        match sorted_by (λ pos, length <$> domains !! pos) unassigned with
        | None => Run [board] board Raised
        | Some [] => Run [board] board Unsolvable
        | Some (position :: _) =>
            match sorted_values domains unassigned position with
            | None => Run [board] board Raised
            | Some values =>
                logged [board]
                  (try_values (λ b d, solve_fuel fuel' b (Some d))
                     domains unassigned position board values)
            end
        end
  end.

(** The entry point [solve(board)]: every nested call fills one more cell,
    so the depth of the recursion is at most the number of empty cells. *)
Definition solve (board : Board) : run :=
  solve_fuel (S (length (argwhere_zero board))) board None.

(** ** Reference data *)

Definition pre_solved : Board :=
  [[5; 3; 4; 6; 7; 8; 9; 1; 2];
   [6; 7; 2; 1; 9; 5; 3; 4; 8];
   [1; 9; 8; 3; 4; 2; 5; 6; 7];
   [8; 5; 9; 7; 6; 1; 4; 2; 3];
   [4; 2; 6; 8; 5; 3; 7; 9; 1];
   [7; 1; 3; 9; 2; 4; 8; 5; 6];
   [9; 6; 1; 5; 3; 7; 2; 8; 4];
   [2; 8; 7; 4; 1; 9; 6; 3; 5];
   [3; 4; 5; 2; 8; 6; 1; 7; 9]]%Z.

Definition empty_board : Board := replicate 9 (replicate 9 0%Z).

(** [pre_solved] with its first row cleared. *)
Definition row0_blank : Board := replicate 9 0%Z :: tail pre_solved.

(** ** What the specification talks about *)

(** The 81 positions of the grid. *)
Definition grid : list Position := r ← seq 0 9; c ← seq 0 9; [(r, c)].

Definition in_grid (p : Position) : Prop := p.1 < 9 ∧ p.2 < 9.

Definition well_shaped (board : Board) : Prop :=
  length board = 9 ∧ Forall (λ row, length row = 9) board.

(** Every cell holds one of 0, 1, ..., 9. *)
Definition entries_ok (board : Board) : Prop :=
  Forall (Forall (λ x, 0 ≤ x ≤ 9)%Z) board.

(** The content of a cell of the grid. *)
Definition cell (board : Board) (p : Position) : Z :=
  default 0%Z (board_get board p).

(** Two positions share a row, a column or a 3x3 block. *)
Definition same_unit (p q : Position) : Prop :=
  p.1 = q.1 ∨ p.2 = q.2 ∨ (p.1 / 3 = q.1 / 3 ∧ p.2 / 3 = q.2 / 3).

(** No two non-zero cells sharing a row, column or block carry the same
    value. *)
Definition conflict_free (board : Board) : Prop :=
  Forall (λ p, Forall (λ q, p ≠ q → same_unit p q →
                            cell board p ≠ 0%Z → cell board p ≠ cell board q)
                      grid) grid.

Definition digits : list Z := [1; 2; 3; 4; 5; 6; 7; 8; 9]%Z.

(** The 27 units: nine rows, nine columns, nine blocks. *)
Definition units : list (list Position) :=
  (row_cells 9 <$> seq 0 9) ++ (col_cells 9 <$> seq 0 9) ++
  (br ← [0; 3; 6]; bc ← [0; 3; 6]; [box_cells br bc]).

(** How often [d] occurs in the unit. *)
Definition occurrences (board : Board) (unit : list Position) (d : Z) : nat :=
  length (filter (λ x, x = d) (cell board <$> unit)).

(** Every row, column and block contains each digit 1-9 exactly once. *)
Definition valid_solution (board : Board) : Prop :=
  well_shaped board ∧
  Forall (λ unit, Forall (λ d, occurrences board unit d = 1) digits) units.

(** [full] keeps every clue of [board]. *)
Definition keeps_clues (board full : Board) : Prop :=
  Forall (λ p, cell board p ≠ 0%Z → cell full p = cell board p) grid.

(** [full] is a valid completion of [board]. *)
Definition completion (board full : Board) : Prop :=
  valid_solution full ∧ keeps_clues board full.

(** The predicates above range over the finite grid: they are decidable,
    and can be evaluated on a given board. *)
#[global] Instance same_unit_dec p q : Decision (same_unit p q).
Proof. unfold same_unit. apply _. Defined.

#[global] Instance in_grid_dec p : Decision (in_grid p).
Proof. unfold in_grid. apply _. Defined.

#[global] Instance well_shaped_dec board : Decision (well_shaped board).
Proof. unfold well_shaped. apply _. Defined.

#[global] Instance entries_ok_dec board : Decision (entries_ok board).
Proof. unfold entries_ok. apply _. Defined.

#[global] Instance conflict_free_dec board : Decision (conflict_free board).
Proof. unfold conflict_free. apply _. Defined.

#[global] Instance valid_solution_dec board : Decision (valid_solution board).
Proof. unfold valid_solution. apply _. Defined.

#[global] Instance keeps_clues_dec board full : Decision (keeps_clues board full).
Proof. unfold keeps_clues. apply _. Defined.

#[global] Instance completion_dec board full : Decision (completion board full).
Proof. unfold completion. apply _. Defined.

(** No cell of the row, the column or the block of [position] holds
    [value]; in the second form the cell at [position] is not looked at. *)
Definition no_cell_holds (board : Board) (position : Position) (value : Z) : Prop :=
  Forall (λ q, same_unit position q → cell board q ≠ value) grid.

Definition no_other_cell_holds (board : Board) (position : Position) (value : Z)
  : Prop :=
  Forall (λ q, q ≠ position → same_unit position q → cell board q ≠ value) grid.

(** The neighbour set of the specification: the *other* listed cells that
    share a unit with [position]. *)
Definition neighbours (position : Position) (unassigned : list Position)
  : list Position :=
  filter (λ u, u ≠ position ∧ same_unit position u) unassigned.

(** In how many of the listed cells [value] is a candidate. *)
Definition listing (domains : Domains) (unassigned : list Position) (value : Z)
  : nat :=
  length (filter (λ u, value ∈@{list Z} default [] (domains !! u)) unassigned).

(** The same count over the cells other than [position]. *)
Definition listing_others (domains : Domains) (unassigned : list Position)
    (position : Position) (value : Z) : nat :=
  length (filter (λ u, u ≠ position ∧ value ∈@{list Z} default [] (domains !! u))
            unassigned).

(** ** Notions used in the proofs *)

(** The order [sort_by] sorts by. *)
Definition le_key {A} (key : A → nat) (x y : A) : Prop := key x ≤ key y.

(** [R] relates the board at the entry of a call to the board the call
    leaves and to every state on its trace. *)
Definition kept (R : Board → Board → Prop) (entry : Board) (r : run) : Prop :=
  R entry (board_after r) ∧ Forall (R entry) (trace r).

(** Every cell that is not empty in [entry] has the same content in [b]. *)
Definition unchanged_clues (entry b : Board) : Prop :=
  ∀ q, board_get entry q ≠ Some 0%Z → board_get b q = board_get entry q.

Definition sound_board (board : Board) : Prop :=
  well_shaped board ∧ conflict_free board.

(** The table has an entry for every empty cell, and its entries are
    duplicate-free lists of digits. *)
Definition domains_ok (board : Board) (domains : Domains) : Prop :=
  (∀ p, board_get board p = Some 0%Z → is_Some (domains !! p)) ∧
  (∀ p vs, domains !! p = Some vs →
           NoDup vs ∧ Forall (λ v, 1 ≤ v ≤ 9)%Z vs).

(** The call returns [(board, True)] or [(None, False)]; the board is
    still a 9x9 grid of digits, and it is full in the first case. *)
Definition ends_well (r : run) : Prop :=
  (result r = Solved ∨ result r = Unsolvable) ∧
  well_shaped (board_after r) ∧ entries_ok (board_after r) ∧
  (result r = Solved → has_zero (board_after r) = false).

(** ** Sample boards *)

(** A full board that is not a solution. *)
Definition all_ones : Board := replicate 9 (replicate 9 1%Z).

(** The reference grid with three cells cleared. *)
Definition three_blanks : Board :=
  board_set (board_set (board_set pre_solved (0, 0) 0%Z) (4, 4) 0%Z) (8, 8) 0%Z.

(** A conflict-free board in which the last cell of the first row has no
    digit left. *)
Definition dead_end : Board :=
  [1; 2; 3; 4; 5; 6; 7; 8; 0]%Z :: [0; 0; 0; 0; 0; 0; 0; 0; 9]%Z ::
  replicate 7 (replicate 9 0%Z).

(** ** [generate] and [delete]

    Both draw from [np.random]. The model takes the values the generator
    returns as an argument, in the order in which the code asks for them. *)

(** How a call that consumes draws ends: with a value, with an
    [IndexError], or still asking for a draw when the given ones are used
    up. *)
Inductive drawn (A : Type) : Type :=
  | Done (a : A)
  | OutOfRange
  | Starved.
Arguments Done {A} a.
Arguments OutOfRange {A}.
Arguments Starved {A}.

(** [board[[r1, r2], :] = board[[r2, r1], :]] *)
Definition swap_rows (board : Board) (r1 r2 : nat) : option Board :=
  row2 ← board !! r2;
  row1 ← board !! r1;
  Some (<[r2 := row1]> (<[r1 := row2]> board)).

(** [board[:, [c1, c2]] = board[:, [c2, c1]]] *)
Definition swap_cols (board : Board) (c1 c2 : nat) : option Board :=
  mapM (λ row : list Z,
          x2 ← row !! c2;
          x1 ← row !! c1;
          Some (<[c2 := x1]> (<[c1 := x2]> row)))
       board.

(** The draws of one pass of the loop of [generate]: for the rows,
    whether [np.random.rand() > 0.5], the band [np.random.choice(3)], and
    the indices in [range(box * 3, (box + 1) * 3)] of the two elements
    that [np.random.choice(..., size=2)] returns; the same for the
    columns. The band and the picks are only drawn when the coin says
    so. *)
Record shuffle := Shuffle {
  rows_coin : bool;
  rows_box : nat;
  rows_pick : nat * nat;
  cols_coin : bool;
  cols_box : nat;
  cols_pick : nat * nat
}.

(** What the generator can return. *)
Definition shuffle_ok (s : shuffle) : Prop :=
  (rows_box s < 3 ∧ (rows_pick s).1 < 3 ∧ (rows_pick s).2 < 3) ∧
  (cols_box s < 3 ∧ (cols_pick s).1 < 3 ∧ (cols_pick s).2 < 3).

#[global] Instance shuffle_ok_dec s : Decision (shuffle_ok s).
Proof. unfold shuffle_ok. apply _. Defined.

(** The body of the loop of [generate]. *)
Definition shuffle_step (board : Board) (s : shuffle) : option Board :=
  board ← (if rows_coin s
           then let box := rows_box s in
                let r1 := box * 3 + (rows_pick s).1 in
                let r2 := box * 3 + (rows_pick s).2 in
                swap_rows board r1 r2
           else Some board);
  if cols_coin s
  then let box := cols_box s in
       let c1 := box * 3 + (cols_pick s).1 in
       let c2 := box * 3 + (cols_pick s).2 in
       swap_cols board c1 c2
  else Some board.

(** [for _ in range(n)] over the body. *)
Fixpoint shuffle_loop (n : nat) (board : Board) (shuffles : list shuffle)
  : drawn Board :=
  match n with
  | 0 => Done board
  | S n' =>
      match shuffles with
      | [] => Starved
      | s :: rest =>
          match shuffle_step board s with
          | None => OutOfRange
          | Some board' => shuffle_loop n' board' rest
          end
      end
  end.

(** The draws of [delete] are the pairs [(row, col)] of two consecutive
    [np.random.choice(size)]. The inner loop draws a cell and draws again
    while the cell is empty. *)
Fixpoint pick_filled (board : Board) (draws : list Position)
  : drawn (Position * list Position) :=
  match draws with
  | [] => Starved
  | p :: rest =>
      match board_get board p with
      | None => OutOfRange
      | Some x => if decide (x = 0%Z) then pick_filled board rest
                  else Done (p, rest)
      end
  end.

(** [delete(board, size, num)]; [size] only bounds the draws. *)
Fixpoint delete (draws : list Position) (board : Board) (size num : nat)
  : drawn Board :=
  match num with
  | 0 => Done board
  | S num' =>
      match pick_filled board draws with
      | Done (p, rest) => delete rest (board_set board p 0%Z) size num'
      | OutOfRange => OutOfRange
      | Starved => Starved
      end
  end.

(** [generate(board, size, num)] returns the puzzle and its solution. *)
Definition generate (shuffles : list shuffle) (draws : list Position)
    (board : Board) (size num : nat) : drawn (Board * Board) :=
  match shuffle_loop 10 board shuffles with
  | Done solution =>
      match delete draws solution size num with
      | Done puzzle => Done (puzzle, solution)
      | OutOfRange => OutOfRange
      | Starved => Starved
      end
  | OutOfRange => OutOfRange
  | Starved => Starved
  end.

(** The exchange of two indices, on positions. *)
Definition exchange (i j k : nat) : nat :=
  if decide (k = j) then i else if decide (k = i) then j else k.

Definition exchange_rows (r1 r2 : nat) (p : Position) : Position :=
  (exchange r1 r2 p.1, p.2).

Definition exchange_cols (c1 c2 : nat) (p : Position) : Position :=
  (p.1, exchange c1 c2 p.2).

(** * Proofs *)

(** ** The grid and the board *)

Lemma elem_of_grid p : p ∈ grid ↔ in_grid p.
Proof.
  unfold grid, in_grid. destruct p as [r c]. cbn [fst snd].
  rewrite list_elem_of_bind. split.
  - intros (r' & Hc & Hr). apply list_elem_of_bind in Hc as (c' & Hp & Hc).
    apply list_elem_of_singleton in Hp. apply elem_of_seq in Hr, Hc.
    inversion Hp; subst. lia.
  - intros [Hr Hc]. exists r. split; [|apply elem_of_seq; lia].
    apply list_elem_of_bind. exists c. split; [by apply list_elem_of_singleton|].
    apply elem_of_seq; lia.
Qed.

Lemma board_get_is_Some board p :
  well_shaped board → in_grid p → is_Some (board_get board p).
Proof.
  intros [Hlen Hrows] [Hr Hc]. unfold board_get.
  destruct (lookup_lt_is_Some_2 board p.1) as [row Hrow]; [lia|].
  rewrite Hrow. simpl. apply lookup_lt_is_Some_2.
  rewrite Forall_lookup in Hrows. rewrite (Hrows _ _ Hrow). lia.
Qed.

Lemma board_get_in_grid board p :
  well_shaped board → is_Some (board_get board p) → in_grid p.
Proof.
  intros [Hlen Hrows] [x Hx]. unfold board_get in Hx.
  destruct (board !! p.1) as [row|] eqn:Hrow; [|done]. simpl in Hx.
  apply lookup_lt_Some in Hx. pose proof (lookup_lt_Some _ _ _ Hrow) as Hr.
  rewrite Forall_lookup in Hrows. rewrite (Hrows _ _ Hrow) in Hx.
  split; lia.
Qed.

Lemma board_get_set board p q v :
  board_get (board_set board p v) q =
  if decide (p = q) then (λ _, v) <$> board_get board p else board_get board q.
Proof.
  unfold board_get, board_set. destruct p as [r c], q as [r' c']. simpl.
  destruct (decide (r = r')) as [->|Hr].
  - rewrite list_lookup_alter_eq. destruct (board !! r') as [row|] eqn:Hrow; simpl.
    + rewrite list_lookup_insert. case_decide as Hc.
      * destruct Hc as [-> Hlt]. rewrite decide_True by done.
        by destruct (lookup_lt_is_Some_2 row c' Hlt) as [y ->].
      * case_decide as Hp; [|done]. inversion Hp; subst.
        destruct (row !! c') eqn:Hy; [|done].
        apply lookup_lt_Some in Hy. naive_solver.
    + by case_decide.
  - rewrite list_lookup_alter_ne by done. rewrite decide_False; [done|congruence].
Qed.

Lemma cell_set board p q v :
  cell (board_set board p v) q =
  if decide (p = q ∧ is_Some (board_get board p)) then v else cell board q.
Proof.
  unfold cell. rewrite board_get_set. case_decide as Hpq.
  - subst q. destruct (board_get board p) eqn:Hp; simpl.
    + rewrite decide_True by eauto. reflexivity.
    + rewrite decide_False; [reflexivity|]. intros [_ [? [=]]].
  - rewrite decide_False; [reflexivity|naive_solver].
Qed.

Lemma well_shaped_set board p v :
  well_shaped board → well_shaped (board_set board p v).
Proof.
  intros [Hlen Hrows]. unfold well_shaped, board_set. rewrite length_alter.
  split; [done|]. rewrite Forall_lookup in Hrows. apply Forall_lookup.
  intros i row. rewrite list_lookup_alter. case_decide.
  - subst. destruct (board !! p.1) as [row'|] eqn:Hrow; [|done].
    simpl. intros [= <-]. rewrite length_insert. eauto.
  - eauto.
Qed.

(** ** Rows, columns and blocks *)

Lemma same_unit_refl p : same_unit p p.
Proof. by left. Qed.

Lemma same_unit_sym p q : same_unit p q → same_unit q p.
Proof. unfold same_unit. naive_solver. Qed.

(** The block of [get_box] and of [is_valid_value], whose origin is found
    by rounding down to a multiple of 3, is the block of [same_unit]. *)
Lemma block_origin (n m : nat) :
  n - n mod 3 ≤ m ∧ m < n - n mod 3 + 3 ↔ n / 3 = m / 3.
Proof.
  pose proof (Nat.div_mod_eq n 3). pose proof (Nat.div_mod_eq m 3).
  pose proof (Nat.mod_upper_bound n 3). pose proof (Nat.mod_upper_bound m 3).
  lia.
Qed.

Lemma elem_of_row_cells n row q : q ∈ row_cells n row ↔ q.1 = row ∧ q.2 < n.
Proof.
  unfold row_cells. rewrite list_elem_of_fmap. destruct q as [r c]. cbn [fst snd].
  split.
  - intros (c' & [= -> ->] & Hc). apply elem_of_seq in Hc. lia.
  - intros [-> Hc]. exists c. split; [done|]. apply elem_of_seq. lia.
Qed.

Lemma elem_of_col_cells n col q : q ∈ col_cells n col ↔ q.2 = col ∧ q.1 < n.
Proof.
  unfold col_cells. rewrite list_elem_of_fmap. destruct q as [r c]. cbn [fst snd].
  split.
  - intros (r' & [= -> ->] & Hr). apply elem_of_seq in Hr. lia.
  - intros [-> Hr]. exists r. split; [done|]. apply elem_of_seq. lia.
Qed.

Lemma elem_of_box_cells r0 c0 q :
  q ∈ box_cells r0 c0 ↔ (r0 ≤ q.1 ∧ q.1 < r0 + 3) ∧ (c0 ≤ q.2 ∧ q.2 < c0 + 3).
Proof.
  unfold box_cells. destruct q as [r c]. cbn [fst snd].
  rewrite list_elem_of_bind. split.
  - intros (r' & Hc & Hr). apply list_elem_of_bind in Hc as (c' & Hp & Hc).
    apply list_elem_of_singleton in Hp. apply elem_of_seq in Hr, Hc.
    inversion Hp; subst. lia.
  - intros [Hr Hc]. exists r. split; [|apply elem_of_seq; lia].
    apply list_elem_of_bind. exists c. split; [by apply list_elem_of_singleton|].
    apply elem_of_seq; lia.
Qed.

Lemma NoDup_row_cells n row : NoDup (row_cells n row).
Proof.
  unfold row_cells. apply NoDup_fmap_2; [|apply NoDup_seq]. by intros ?? [=].
Qed.

Lemma NoDup_col_cells n col : NoDup (col_cells n col).
Proof.
  unfold col_cells. apply NoDup_fmap_2; [|apply NoDup_seq]. by intros ?? [=].
Qed.

Lemma NoDup_box_cells r0 c0 : NoDup (box_cells r0 c0).
Proof.
  unfold box_cells. apply NoDup_bind; [| |apply NoDup_seq].
  - intros r r' q _ _ Hq Hq'.
    apply list_elem_of_bind in Hq as (c & Hq & _).
    apply list_elem_of_bind in Hq' as (c' & Hq' & _).
    apply list_elem_of_singleton in Hq, Hq'. congruence.
  - intros r _. apply NoDup_bind; [| |apply NoDup_seq].
    + intros c c' q _ _ Hq Hq'.
      apply list_elem_of_singleton in Hq, Hq'. congruence.
    + intros c _. apply NoDup_singleton.
Qed.

(** ** [is_valid_value] *)

Lemma scan_readable board value seen cells :
  Forall (λ p, is_Some (board_get board p)) cells →
  scan board value seen cells =
  Some (filter (λ p, cell board p = value ∧ p ∉ seen) cells).
Proof.
  induction 1 as [|p cells [x Hx] _ IH]; [done|].
  assert (cell board p = x) as Hc by (unfold cell; by rewrite Hx).
  rewrite filter_cons. cbn [scan]. rewrite Hx, IH, Hc. cbn.
  repeat case_decide; naive_solver.
Qed.

Lemma shape_well_shaped board :
  well_shaped board → shape0 board = 9 ∧ shape1 board = 9.
Proof.
  intros [Hlen Hrows]. unfold shape0, shape1. split; [done|].
  destruct board as [|row board]; [done|]. by inversion Hrows.
Qed.

(** The three areas [is_valid_value] scans are the cells sharing a unit
    with the queried position, this position included. *)
Lemma scanned_cells row col q :
  in_grid (row, col) →
  q ∈ row_cells 9 row ∨ q ∈ col_cells 9 col ∨
    q ∈ box_cells (row - row mod 3) (col - col mod 3)
  ↔ in_grid q ∧ same_unit (row, col) q.
Proof.
  intros [Hr Hc]. cbn [fst snd] in Hr, Hc.
  rewrite elem_of_row_cells, elem_of_col_cells, elem_of_box_cells.
  rewrite !block_origin. unfold in_grid, same_unit. cbn [fst snd].
  split.
  - intros [[<- ?]|[[<- ?]|[Hbr Hbc]]]; [naive_solver..|].
    split; [|naive_solver].
    pose proof (Nat.div_mod_eq row 3). pose proof (Nat.div_mod_eq q.1 3).
    pose proof (Nat.mod_upper_bound q.1 3).
    pose proof (Nat.div_mod_eq col 3). pose proof (Nat.div_mod_eq q.2 3).
    pose proof (Nat.mod_upper_bound q.2 3).
    pose proof (Nat.Div0.div_lt_upper_bound row 3 3).
    pose proof (Nat.Div0.div_lt_upper_bound col 3 3). lia.
  - naive_solver.
Qed.

Lemma is_valid_value_spec board position value :
  well_shaped board → in_grid position →
  ∃ conflicts,
    is_valid_value board position value
      = Some (bool_decide (conflicts = []), conflicts) ∧
    NoDup conflicts ∧
    ∀ q, q ∈ conflicts ↔
         in_grid q ∧ same_unit position q ∧ cell board q = value.
Proof.
  intros Hwf Hpos. destruct position as [row col].
  destruct (shape_well_shaped _ Hwf) as [Hs0 Hs1].
  assert (∀ cells, Forall in_grid cells →
            Forall (λ p, is_Some (board_get board p)) cells) as Hread.
  { intros cells Hcells. eapply Forall_impl; [exact Hcells|].
    intros p. by apply board_get_is_Some. }
  assert (Forall in_grid (row_cells 9 row)) as Hrow.
  { apply Forall_forall. intros q Hq. apply (scanned_cells row col); auto. }
  assert (Forall in_grid (col_cells 9 col)) as Hcol.
  { apply Forall_forall. intros q Hq. apply (scanned_cells row col); auto. }
  assert (Forall in_grid (box_cells (row - row mod 3) (col - col mod 3))) as Hbox.
  { apply Forall_forall. intros q Hq. apply (scanned_cells row col); auto. }
  unfold is_valid_value. rewrite Hs0, Hs1.
  rewrite scan_readable by auto. cbn [mbind option_bind app].
  rewrite scan_readable by auto. cbn [mbind option_bind].
  rewrite scan_readable by auto. cbn [mbind option_bind].
  eexists. split; [|split].
  - f_equal. f_equal. apply bool_decide_ext. apply length_zero_iff_nil.
  - rewrite !NoDup_app. split_and!.
    + apply NoDup_filter, NoDup_row_cells.
    + intros q Hq. rewrite list_elem_of_filter. naive_solver.
    + apply NoDup_filter, NoDup_col_cells.
    + intros q Hq. rewrite list_elem_of_filter. naive_solver.
    + apply NoDup_filter, NoDup_box_cells.
  - intros q. pose proof (scanned_cells row col q Hpos) as Hsc.
    set (f1 := filter _ (row_cells 9 row)).
    set (f2 := filter _ (col_cells 9 col)).
    assert (q ∈ f1 ↔ q ∈ row_cells 9 row ∧ cell board q = value) as E1.
    { unfold f1. rewrite list_elem_of_filter.
      pose proof (not_elem_of_nil q). tauto. }
    assert (q ∈ f2 ↔ (q ∈ col_cells 9 col ∧ cell board q = value) ∧ q ∉ f1) as E2.
    { unfold f2. rewrite list_elem_of_filter. tauto. }
    rewrite elem_of_app, list_elem_of_filter, !elem_of_app.
    destruct (decide (q ∈ f1)); destruct (decide (q ∈ f2)); tauto.
Qed.

(** C4, as stated, fails where the queried cell itself holds the value: no
    other cell of the units of (0,0) in [pre_solved] holds 5, yet the
    answer is [False] with the queried position as the conflict. *)
Lemma is_valid_value_own_cell_counterexample :
  ¬ (is_valid_value pre_solved (0, 0) 5%Z = Some (true, [])
     ↔ no_other_cell_holds pre_solved (0, 0) 5%Z).
Proof.
  assert (is_valid_value pre_solved (0, 0) 5%Z = Some (false, [(0, 0)])) as Hv
    by (vm_compute; reflexivity).
  assert (no_other_cell_holds pre_solved (0, 0) 5%Z) as Hn by compute_done.
  rewrite Hv. intros [_ H]. specialize (H Hn). discriminate H.
Qed.

(** C4 (amended). On a 9x9 board and for a position of the grid,
    [is_valid_value] returns [True] with an empty conflict list if and only
    if no cell of the same row, column or 3x3 block (the cell at the
    queried position included) holds the value; otherwise it returns
    [False] with the list of all those cells that hold the value, each
    listed once. When the queried cell does not hold the value itself, this
    is the condition on the other cells. *)
Theorem is_valid_value_all_conflicts
    (board : Board) (position : Position) (value : Z) :
  well_shaped board → in_grid position →
  ∃ (valid : bool) (conflicts : list Position),
    is_valid_value board position value = Some (valid, conflicts) ∧
    (valid = true ↔ conflicts = []) ∧
    (valid = true ↔ no_cell_holds board position value) ∧
    NoDup conflicts ∧
    (∀ q, q ∈ conflicts ↔
          in_grid q ∧ same_unit position q ∧ cell board q = value) ∧
    (cell board position ≠ value →
     (valid = true ↔ no_other_cell_holds board position value)).
Proof.
  intros Hwf Hpos.
  destruct (is_valid_value_spec board position value Hwf Hpos)
    as (conflicts & Heq & Hnd & Hin).
  assert (conflicts = [] ↔ no_cell_holds board position value) as Hnone.
  { unfold no_cell_holds. rewrite Forall_forall. split.
    - intros -> q Hq Hsame Hcell. apply elem_of_grid in Hq.
      eapply not_elem_of_nil, Hin. eauto.
    - intros Hno. apply elem_of_nil_inv. intros q Hq.
      apply Hin in Hq as (Hq & Hsame & Hcell).
      apply elem_of_grid in Hq. by apply (Hno q). }
  exists (bool_decide (conflicts = [])), conflicts.
  rewrite bool_decide_eq_true. split_and!; [done..|].
  intros Hown. rewrite Hnone. unfold no_cell_holds, no_other_cell_holds.
  rewrite !Forall_forall. split.
  - intros H q Hq _. by apply H.
  - intros H q Hq. destruct (decide (q = position)) as [->|Hne]; [done|].
    by apply H.
Qed.

Lemma is_valid_value_all_conflicts_witness :
  ∃ (valid : bool) (conflicts : list Position),
    is_valid_value row0_blank (0, 0) 6%Z = Some (valid, conflicts) ∧
    (valid = true ↔ conflicts = []) ∧
    (valid = true ↔ no_cell_holds row0_blank (0, 0) 6%Z) ∧
    NoDup conflicts ∧
    (∀ q, q ∈ conflicts ↔
          in_grid q ∧ same_unit (0, 0) q ∧ cell row0_blank q = 6%Z) ∧
    (cell row0_blank (0, 0) ≠ 6%Z →
     (valid = true ↔ no_other_cell_holds row0_blank (0, 0) 6%Z)).
Proof.
  apply (is_valid_value_all_conflicts row0_blank (0, 0) 6%Z); compute_done.
Defined.

(** ** [remove_value] and [forward_checking] *)

Lemma filter_filter_same {A} (P : A → Prop) `{∀ x, Decision (P x)} (l : list A) :
  filter P (filter P l) = filter P l.
Proof.
  induction l as [|x l IH]; [done|].
  rewrite filter_cons. case_decide as HP; [|done].
  rewrite filter_cons, decide_True by done. by rewrite IH.
Qed.

Lemma remove_value_lookup (domains : Domains) value region u :
  remove_value domains value region !! u =
  if decide (u ∈ region) then filter (λ v, v ≠ value) <$> domains !! u
  else domains !! u.
Proof.
  unfold remove_value. revert domains.
  induction region as [|r region IH]; intros domains; cbn [foldl].
  { rewrite decide_False; [done|apply not_elem_of_nil]. }
  rewrite IH. clear IH.
  assert ((match domains !! r with
           | Some vs => <[r:=filter (λ v, v ≠ value) vs]> domains
           | None => domains
           end) !! u =
          if decide (u = r) then filter (λ v, v ≠ value) <$> domains !! u
          else domains !! u) as ->.
  { case_decide as Hur.
    - subst. destruct (domains !! r) as [vs|] eqn:Hr; cbn.
      + by rewrite lookup_insert_eq.
      + done.
    - destruct (domains !! r) as [vs|] eqn:Hr; [|done].
      by rewrite lookup_insert_ne. }
  destruct (decide (u = r)) as [->|Hur].
  - rewrite (decide_True (P := r ∈ r :: region)) by apply list_elem_of_here.
    case_decide; [|done].
    destruct (domains !! r); cbn; [|done]. by rewrite filter_filter_same.
  - destruct (decide (u ∈ region)) as [Hin|Hin].
    + rewrite decide_True; [done|by apply list_elem_of_further].
    + rewrite decide_False; [done|]. rewrite elem_of_cons. tauto.
Qed.

Lemma elem_of_insert_unique p q l : q ∈ insert_unique p l ↔ q = p ∨ q ∈ l.
Proof.
  induction l as [|x l IH]; cbn [insert_unique].
  { rewrite list_elem_of_singleton, elem_of_nil. tauto. }
  repeat case_decide; subst; rewrite ?elem_of_cons, ?IH; rewrite ?elem_of_cons;
    tauto.
Qed.

Lemma elem_of_np_unique q l : q ∈ np_unique l ↔ q ∈ l.
Proof.
  unfold np_unique. induction l as [|x l IH]; cbn [foldr]; [done|].
  rewrite elem_of_insert_unique, IH, elem_of_cons. tauto.
Qed.

(** The cells whose entry [forward_checking] rewrites: the listed cells
    that share a unit with [position]. *)
Lemma elem_of_region position unassigned u :
  u ∈ np_unique (get_horizontal position unassigned ++
                 get_vertical position unassigned ++
                 get_box position unassigned)
  ↔ u ∈ unassigned ∧ same_unit position u.
Proof.
  rewrite elem_of_np_unique, !elem_of_app.
  unfold get_horizontal, get_vertical, get_box. rewrite !list_elem_of_filter.
  rewrite !block_origin. unfold same_unit. naive_solver.
Qed.

Lemma forward_checking_lookup (domains : Domains) unassigned position value u :
  forward_checking domains unassigned position value !! u =
  if decide (u ∈ unassigned ∧ same_unit position u)
  then filter (λ v, v ≠ value) <$> domains !! u
  else domains !! u.
Proof.
  unfold forward_checking. rewrite remove_value_lookup.
  apply decide_ext, elem_of_region.
Qed.

(** [forward_checking] keeps the keys of the table. *)
Lemma forward_checking_is_Some (domains : Domains) unassigned position value u :
  is_Some (forward_checking domains unassigned position value !! u)
  ↔ is_Some (domains !! u).
Proof.
  rewrite forward_checking_lookup. case_decide; [|done].
  by rewrite fmap_is_Some.
Qed.

(** [forward_checking] only removes candidates. *)
Lemma forward_checking_subset (domains : Domains) unassigned position value u vs' :
  forward_checking domains unassigned position value !! u = Some vs' →
  ∃ vs, domains !! u = Some vs ∧ ∀ v, v ∈ vs' → v ∈ vs.
Proof.
  rewrite forward_checking_lookup. case_decide.
  - destruct (domains !! u) as [vs|]; [|done]. cbn. intros [= <-].
    exists vs. split; [done|]. intros v. rewrite list_elem_of_filter. tauto.
  - intros ->. eauto.
Qed.

(** A cell that is neither a neighbour nor [position] itself keeps its
    entry. *)
Lemma forward_checking_frame (domains : Domains) unassigned position value u :
  u ∉ neighbours position unassigned → u ≠ position →
  forward_checking domains unassigned position value !! u = domains !! u.
Proof.
  intros Hu Hne. rewrite forward_checking_lookup. rewrite decide_False; [done|].
  intros [Hin Hsame]. apply Hu. unfold neighbours.
  rewrite list_elem_of_filter. tauto.
Qed.

(** C5, at the first assignment [solve] makes on [row0_blank]: the
    position (0,0) is not one of its own neighbours, yet its entry loses
    the assigned value 5. *)
Theorem forward_checking_rewrites_own_entry :
  ((0, 0) ∉ neighbours (0, 0) (argwhere_zero row0_blank)) ∧
  (get_domains row0_blank) !! (0, 0) = Some [1; 2; 3; 4; 5; 6; 7; 8; 9]%Z ∧
  (forward_checking (get_domains row0_blank) (argwhere_zero row0_blank)
     (0, 0) 5%Z) !! (0, 0) = Some [1; 2; 3; 4; 6; 7; 8; 9]%Z.
Proof. split_and!; [compute_done|vm_compute; reflexivity..]. Qed.

(** C6. In the table [forward_checking] returns, no listed (unassigned)
    cell that shares the row, the column or the 3x3 block of the position
    has the assigned value among its candidates. *)
Theorem forward_checking_sound
    (domains : Domains) (unassigned : list Position) (position : Position)
    (value : Z) (u : Position) (candidates : list Z) :
  u ∈ unassigned → same_unit position u →
  forward_checking domains unassigned position value !! u = Some candidates →
  value ∉ candidates.
Proof.
  intros Hin Hsame. rewrite forward_checking_lookup, decide_True by done.
  destruct (domains !! u) as [vs|]; [|done]. cbn. intros [= <-].
  rewrite list_elem_of_filter. tauto.
Qed.

Lemma forward_checking_sound_witness :
  (0, 3) ∈ argwhere_zero row0_blank ∧ same_unit (0, 0) (0, 3) ∧
  (forward_checking (get_domains row0_blank) (argwhere_zero row0_blank)
     (0, 0) 5%Z) !! (0, 3) = Some [1; 2; 3; 4; 6; 7; 8; 9]%Z ∧
  5%Z ∉ [1; 2; 3; 4; 6; 7; 8; 9]%Z.
Proof.
  assert ((0, 3) ∈ argwhere_zero row0_blank) as H1 by (vm_compute; set_solver).
  assert (same_unit (0, 0) (0, 3)) as H2 by (by left).
  assert ((forward_checking (get_domains row0_blank) (argwhere_zero row0_blank)
             (0, 0) 5%Z) !! (0, 3) = Some [1; 2; 3; 4; 6; 7; 8; 9]%Z) as H3
    by (vm_compute; reflexivity).
  split_and!; [exact H1|exact H2|exact H3|].
  exact (forward_checking_sound _ _ _ _ _ _ H1 H2 H3).
Defined.

(** ** Sorting by a key *)

Section sort_by.
Context {A : Type} (key : A → nat).

Lemma insert_by_Permutation x l : insert_by key x l ≡ₚ x :: l.
Proof.
  induction l as [|y l IH]; cbn [insert_by]; [done|].
  case_decide; [done|]. rewrite IH. apply Permutation_swap.
Qed.

Lemma sort_by_Permutation l : sort_by key l ≡ₚ l.
Proof.
  unfold sort_by. induction l as [|x l IH]; cbn [foldr]; [done|].
  by rewrite insert_by_Permutation, IH.
Qed.

Lemma insert_by_sorted x l :
  StronglySorted (le_key key) l → StronglySorted (le_key key) (insert_by key x l).
Proof.
  induction 1 as [|y l Hs IH Hy]; cbn [insert_by].
  { repeat constructor. }
  case_decide as Hxy.
  - constructor; [by constructor|]. constructor; [done|].
    eapply Forall_impl; [exact Hy|]. unfold le_key in *. intros z. lia.
  - constructor; [done|]. rewrite insert_by_Permutation.
    constructor; [|done]. unfold le_key. lia.
Qed.

Lemma sort_by_sorted l : StronglySorted (le_key key) (sort_by key l).
Proof.
  unfold sort_by. induction l as [|x l IH]; cbn [foldr]; [constructor|].
  by apply insert_by_sorted.
Qed.
End sort_by.

Lemma StronglySorted_fmap_snd {A} (R : A → A → Prop) (l : list (nat * A)) :
  StronglySorted (λ a b, a.1 ≤ b.1) l →
  (∀ a b, a ∈ l → b ∈ l → a.1 ≤ b.1 → R a.2 b.2) →
  StronglySorted R (snd <$> l).
Proof.
  induction 1 as [|a l Hs IH Ha]; intros HR; cbn; [constructor|].
  constructor.
  - apply IH. intros b c Hb Hc. apply HR; by apply list_elem_of_further.
  - apply Forall_fmap, Forall_forall. intros b Hb. cbn.
    rewrite Forall_forall in Ha.
    apply HR; [apply list_elem_of_here|by apply list_elem_of_further|auto].
Qed.

(** [sorted] returns a rearrangement of its argument in which the keys
    never decrease. *)
Lemma sorted_by_Some {A} (key : A → option nat) (l l' : list A) :
  sorted_by key l = Some l' →
  l' ≡ₚ l ∧
  StronglySorted (λ x y, ∀ kx ky, key x = Some kx → key y = Some ky → kx ≤ ky) l'.
Proof.
  unfold sorted_by.
  destruct (mapM (λ x, k ← key x; Some (k, x)) l) as [keyed|] eqn:Hm; [|done].
  apply mapM_Some_1 in Hm. cbn. intros [= <-].
  assert (snd <$> keyed = l) as Hsnd.
  { induction Hm as [|x y l keyed Hxy _ IH]; [done|].
    cbn. rewrite IH. f_equal.
    destruct (key x); cbn in Hxy; by inversion Hxy. }
  assert (Forall (λ a, key a.2 = Some a.1) keyed) as Hk.
  { eapply Forall2_Forall_r; [exact Hm|]. apply Forall_forall. intros x _ y Hxy.
    destruct (key x) eqn:Hx; cbn in Hxy; inversion Hxy; subst. done. }
  split.
  - rewrite <-Hsnd. by rewrite sort_by_Permutation.
  - apply StronglySorted_fmap_snd; [apply sort_by_sorted|].
    rewrite Forall_forall in Hk. intros a b Ha Hb Hab kx ky Hkx Hky.
    rewrite sort_by_Permutation in Ha, Hb.
    rewrite (Hk a Ha) in Hkx. rewrite (Hk b Hb) in Hky. by simplify_eq.
Qed.

(** It raises only when a key does. *)
Lemma sorted_by_is_Some {A} (key : A → option nat) (l : list A) :
  Forall (λ x, is_Some (key x)) l → is_Some (sorted_by key l).
Proof.
  intros Hkeys. unfold sorted_by.
  destruct (mapM (λ x, k ← key x; Some (k, x)) l) as [keyed|] eqn:Hm; [by eexists|].
  exfalso. eapply is_Some_None. rewrite <-Hm. apply mapM_is_Some_2.
  eapply Forall_impl; [exact Hkeys|]. intros x [k Hk]. cbn. rewrite Hk. by eexists.
Qed.

(** ** [sorted_values] *)

Lemma dict_keys_NoDup seen values :
  NoDup values → (∀ v, v ∈ values → v ∉ seen) → dict_keys seen values = values.
Proof.
  intros Hnd. revert seen. induction Hnd as [|v values Hv Hnd IH]; intros seen Hseen.
  { done. }
  cbn [dict_keys]. rewrite decide_False by (apply Hseen, list_elem_of_here).
  f_equal. apply IH. intros w Hw. rewrite not_elem_of_cons. split.
  - intros ->. done.
  - apply Hseen. by apply list_elem_of_further.
Qed.

Lemma listing_cons (domains : Domains) u unassigned value du :
  domains !! u = Some du →
  listing domains (u :: unassigned) value =
  (if decide (value ∈ du) then 1 else 0) + listing domains unassigned value.
Proof.
  intros Hu. unfold listing. rewrite filter_cons, Hu. cbn [default from_option].
  unfold id. repeat case_decide; done.
Qed.

Lemma count_affected_lookup (domains : Domains) unassigned (affected : gmap Z nat) value :
  Forall (λ u, is_Some (domains !! u)) unassigned →
  ∃ affected',
    count_affected domains unassigned affected value = Some affected' ∧
    ∀ w, affected' !! w =
         if decide (w = value)
         then (λ n, listing domains unassigned value + n) <$> affected !! w
         else affected !! w.
Proof.
  intros Hdom. revert affected.
  induction Hdom as [|u unassigned [du Hu] _ IH]; intros affected.
  { exists affected. split; [done|]. intros w. case_decide; [|done].
    by destruct (affected !! w). }
  unfold count_affected in *. cbn [foldlM]. rewrite Hu. cbn [mbind option_bind].
  destruct (IH (if decide (value ∈ du) then alter S value affected else affected))
    as (affected' & Heq & Hl).
  exists affected'. split; [exact Heq|].
  intros w. rewrite Hl, (listing_cons _ _ _ _ du Hu).
  repeat case_decide; subst;
    rewrite ?lookup_alter_eq, ?lookup_alter_ne by done; try done.
  destruct (affected !! value); cbn; [|done]. f_equal. lia.
Qed.

Lemma foldlM_count_affected (domains : Domains) unassigned values :
  Forall (λ u, is_Some (domains !! u)) unassigned →
  NoDup values →
  ∀ affected : gmap Z nat,
  ∃ affected',
    foldlM (count_affected domains unassigned) affected values = Some affected' ∧
    ∀ w, affected' !! w =
         if decide (w ∈ values)
         then (λ n, listing domains unassigned w + n) <$> affected !! w
         else affected !! w.
Proof.
  intros Hdom. induction 1 as [|v values Hv Hnd IH]; intros affected.
  { exists affected. split; [done|]. intros w.
    rewrite decide_False; [done|apply not_elem_of_nil]. }
  cbn [foldlM].
  destruct (count_affected_lookup domains unassigned affected v Hdom)
    as (affected1 & -> & H1).
  cbn [mbind option_bind].
  destruct (IH affected1) as (affected' & -> & Hl).
  exists affected'. split; [done|]. intros w. rewrite Hl, H1.
  destruct (decide (w = v)) as [->|Hwv].
  - rewrite decide_False by done.
    rewrite decide_True; [done|apply list_elem_of_here].
  - destruct (decide (w ∈ values)) as [Hw|Hw].
    + rewrite decide_True; [done|by apply list_elem_of_further].
    + rewrite decide_False; [done|]. rewrite elem_of_cons. tauto.
Qed.

Lemma affected_initial (values : list Z) w :
  (list_to_map ((λ v, (v, 0)) <$> values) : gmap Z nat) !! w =
  if decide (w ∈ values) then Some 0 else None.
Proof.
  induction values as [|v values IH]; cbn.
  { rewrite lookup_empty, decide_False; [done|apply not_elem_of_nil]. }
  destruct (decide (w = v)) as [->|Hwv].
  - rewrite lookup_insert_eq, decide_True; [done|apply list_elem_of_here].
  - rewrite lookup_insert_ne, IH by done. apply decide_ext.
    rewrite elem_of_cons. tauto.
Qed.

Lemma length_filter_split {A} (P Q : A → Prop)
    `{∀ x, Decision (P x)} `{∀ x, Decision (Q x)} (l : list A) :
  length (filter P l) =
  length (filter (λ x, Q x ∧ P x) l) + length (filter (λ x, ¬ Q x ∧ P x) l).
Proof.
  induction l as [|x l IH]; [done|].
  rewrite !filter_cons. repeat case_decide; cbn; try lia; tauto.
Qed.

(** Among the candidates of [position], counting over all listed cells and
    counting over the other listed cells differ by a constant. *)
Lemma listing_split (domains : Domains) unassigned position values value :
  domains !! position = Some values → value ∈ values →
  listing domains unassigned value =
  listing_others domains unassigned position value +
  length (filter (λ u, u = position) unassigned).
Proof.
  intros Hpos Hin. unfold listing, listing_others.
  rewrite (length_filter_split _ (λ u, u ≠ position)). f_equal.
  f_equal. apply list_filter_iff. intros u. split.
  - intros [Hu _]. by destruct (decide (u = position)).
  - intros ->. rewrite Hpos. cbn. tauto.
Qed.

(** [sorted_values] returns the candidates of [position] ordered by the
    count the loops compute. *)
Lemma sorted_values_spec (domains : Domains) unassigned position values :
  domains !! position = Some values → NoDup values →
  Forall (λ u, is_Some (domains !! u)) unassigned →
  ∃ sorted_list,
    sorted_values domains unassigned position = Some sorted_list ∧
    sorted_list ≡ₚ values ∧
    StronglySorted
      (λ v w, listing domains unassigned v ≤ listing domains unassigned w)
      sorted_list.
Proof.
  intros Hpos Hnd Hdom. unfold sorted_values. rewrite Hpos.
  cbn [mbind option_bind].
  destruct (foldlM_count_affected domains unassigned values Hdom Hnd
              (list_to_map ((λ v, (v, 0)) <$> values)))
    as (affected & -> & Haff).
  cbn [mbind option_bind].
  rewrite dict_keys_NoDup by (done || intros; apply not_elem_of_nil).
  assert (∀ v, v ∈ values →
            affected !! v = Some (listing domains unassigned v + 0)) as Hkey.
  { intros v Hv. by rewrite Haff, affected_initial, !decide_True. }
  destruct (sorted_by_is_Some (λ v, affected !! v) values) as [sorted_list Hs].
  { apply Forall_forall. intros v Hv. rewrite (Hkey v Hv). by eexists. }
  rewrite Hs. apply sorted_by_Some in Hs as [Hperm Hsorted].
  exists sorted_list. split_and!; [done..|].
  assert (Forall (λ v, v ∈ values) sorted_list) as Hall.
  { apply Forall_forall. intros v. by rewrite Hperm. }
  clear Hperm. induction Hsorted as [|v l Hs IH Hv]; [constructor|].
  inversion Hall as [|? ? Hvin Hall']; subst.
  constructor; [by apply IH|].
  rewrite Forall_forall in Hv, Hall'. apply Forall_forall. intros w Hw.
  specialize (Hv w Hw _ _ (Hkey v Hvin) (Hkey w (Hall' w Hw))). lia.
Qed.

(** C9. [sorted_values] returns the candidate values of the selected cell,
    each once, in ascending order of the number of other unassigned cells
    whose domain still contains the value. *)
Theorem sorted_values_ascending
    (domains : Domains) (unassigned : list Position) (position : Position)
    (values : list Z) :
  domains !! position = Some values → NoDup values →
  Forall (λ u, is_Some (domains !! u)) unassigned →
  ∃ sorted_list,
    sorted_values domains unassigned position = Some sorted_list ∧
    sorted_list ≡ₚ values ∧
    StronglySorted
      (λ v w, listing_others domains unassigned position v
              ≤ listing_others domains unassigned position w)
      sorted_list.
Proof.
  intros Hpos Hnd Hdom.
  destruct (sorted_values_spec domains unassigned position values Hpos Hnd Hdom)
    as (sorted_list & Heq & Hperm & Hsorted).
  exists sorted_list. split_and!; [done..|].
  assert (Forall (λ v, v ∈ values) sorted_list) as Hall.
  { apply Forall_forall. intros v. by rewrite Hperm. }
  clear Hperm Heq. induction Hsorted as [|v l Hs IH Hv]; [constructor|].
  inversion Hall as [|? ? Hvin Hall']; subst.
  constructor; [by apply IH|].
  rewrite Forall_forall in Hv, Hall'. apply Forall_forall. intros w Hw.
  specialize (Hv w Hw).
  rewrite (listing_split _ _ _ _ v Hpos Hvin) in Hv.
  rewrite (listing_split _ _ _ _ w Hpos (Hall' w Hw)) in Hv. lia.
Qed.

Lemma sorted_values_ascending_witness :
  ∃ sorted_list,
    sorted_values (<[(0, 1) := [1; 2]%Z]> (<[(0, 0) := [1; 2; 3]%Z]> ∅))
      [(0, 0); (0, 1)] (0, 0) = Some sorted_list ∧
    sorted_list ≡ₚ [1; 2; 3]%Z ∧
    StronglySorted
      (λ v w,
         listing_others (<[(0, 1) := [1; 2]%Z]> (<[(0, 0) := [1; 2; 3]%Z]> ∅))
           [(0, 0); (0, 1)] (0, 0) v
         ≤ listing_others (<[(0, 1) := [1; 2]%Z]> (<[(0, 0) := [1; 2; 3]%Z]> ∅))
             [(0, 0); (0, 1)] (0, 0) w)
      sorted_list.
Proof.
  apply (sorted_values_ascending
           (<[(0, 1) := [1; 2]%Z]> (<[(0, 0) := [1; 2; 3]%Z]> ∅))
           [(0, 0); (0, 1)] (0, 0) [1; 2; 3]%Z).
  - vm_compute. reflexivity.
  - compute_done.
  - compute_done.
Defined.

(** ** The search: what every write preserves *)

Lemma elem_of_argwhere_zero board p :
  p ∈ argwhere_zero board → board_get board p = Some 0%Z.
Proof. unfold argwhere_zero. rewrite list_elem_of_filter. tauto. Qed.

Lemma solve_fuel_None fuel board :
  solve_fuel fuel board None = solve_fuel fuel board (Some (get_domains board)).
Proof. by destruct fuel. Qed.

(** A relation [R entry current] between the board at the entry of a call
    and a later state of the board holds throughout the search as soon as
    it is kept by the two writes of [solve]: the assignment of a value that
    [is_valid_value] accepts, and the reset to 0, both at a cell that was
    empty at entry. *)
Section search_invariant.
Variable R : Board → Board → Prop.
Hypothesis R_refl : ∀ b, R b b.
Hypothesis R_trans : ∀ a b c, R a b → R b c → R a c.
Hypothesis R_assign : ∀ entry b p v cs,
  R entry b → board_get entry p = Some 0%Z →
  is_valid_value b p v = Some (true, cs) → R entry (board_set b p v).
Hypothesis R_reset : ∀ entry b p,
  R entry b → board_get entry p = Some 0%Z → R entry (board_set b p 0%Z).

Lemma kept_logged entry before r :
  Forall (R entry) before → kept R entry r → kept R entry (logged before r).
Proof.
  intros Hb [Ha Ht]. split; [done|]. cbn. by apply Forall_app.
Qed.

Lemma kept_trans entry b r : R entry b → kept R b r → kept R entry r.
Proof.
  intros Hb [Ha Ht]. split; [by eapply R_trans|].
  eapply Forall_impl; [exact Ht|]. intros b'. by apply R_trans.
Qed.

Lemma try_values_kept solve_rec domains unassigned position entry :
  (∀ b d, kept R b (solve_rec b d)) →
  board_get entry position = Some 0%Z →
  ∀ values board, R entry board →
    kept R entry (try_values solve_rec domains unassigned position board values).
Proof.
  intros Hrec Hpos. induction values as [|value values IH]; intros board Hb.
  { split; [done|constructor]. }
  cbn [try_values].
  destruct (is_valid_value board position value) as [[[] cs]|] eqn:Hvalid.
  - pose proof (R_assign _ _ _ _ _ Hb Hpos Hvalid) as Hb1.
    destruct (any_empty _ unassigned) as [[]|].
    + apply kept_logged; [by repeat constructor|]. by apply IH.
    + pose proof (Hrec (board_set board position value)
                    (forward_checking domains unassigned position value)) as Hr.
      apply (kept_trans entry) in Hr; [|done]. destruct Hr as [Ha Ht].
      destruct (result _); try (by split).
      apply kept_logged.
      * apply Forall_app. split; [done|]. repeat constructor. by apply R_reset.
      * apply IH. by apply R_reset.
    + split; [done|]. by repeat constructor.
  - by apply IH.
  - split; [done|constructor].
Qed.

Lemma solve_fuel_kept fuel board domains :
  kept R board (solve_fuel fuel board domains).
Proof.
  revert board domains. induction fuel as [|fuel IH]; intros board domains.
  { split; [apply R_refl|]. repeat constructor. apply R_refl. }
  assert (kept R board (Run [board] board Solved) ∧
          kept R board (Run [board] board Raised) ∧
          kept R board (Run [board] board Unsolvable)) as (H1 & H2 & H3).
  { split_and!; (split; [apply R_refl|]); repeat constructor; apply R_refl. }
  cbn [solve_fuel]. destruct (negb (has_zero board)); [done|].
  destruct (sorted_by _ (argwhere_zero board)) as [[|position sorted]|] eqn:Hs;
    [done| |done].
  destruct (sorted_values _ _ position) as [values|]; [|done].
  apply kept_logged; [repeat constructor; apply R_refl|].
  apply try_values_kept; [intros b d; apply IH| |apply R_refl].
  apply elem_of_argwhere_zero. apply sorted_by_Some in Hs as [Hperm _].
  rewrite <-Hperm. apply list_elem_of_here.
Qed.
End search_invariant.

(** *** The clues are never written *)

Lemma solve_fuel_unchanged_clues fuel board domains :
  kept unchanged_clues board (solve_fuel fuel board domains).
Proof.
  apply solve_fuel_kept; unfold unchanged_clues.
  - done.
  - intros a b c Hab Hbc q Hq. rewrite Hbc, Hab; [done..|]. by rewrite Hab.
  - intros entry b p v cs Hb Hp _ q Hq. rewrite board_get_set.
    rewrite decide_False by congruence. by apply Hb.
  - intros entry b p Hb Hp q Hq. rewrite board_get_set.
    rewrite decide_False by congruence. by apply Hb.
Qed.

(** *** The shape and the absence of conflicts are kept *)

Lemma conflict_free_forall board :
  conflict_free board ↔
  ∀ p q, in_grid p → in_grid q → p ≠ q → same_unit p q →
         cell board p ≠ 0%Z → cell board p ≠ cell board q.
Proof.
  unfold conflict_free. rewrite Forall_forall. split.
  - intros H p q Hp Hq. apply elem_of_grid in Hp, Hq.
    specialize (H p Hp). rewrite Forall_forall in H. by apply H.
  - intros H p Hp. apply Forall_forall. intros q Hq.
    apply elem_of_grid in Hp, Hq. by apply H.
Qed.

Lemma conflict_free_assign board p v cs :
  well_shaped board → in_grid p → conflict_free board →
  is_valid_value board p v = Some (true, cs) →
  conflict_free (board_set board p v).
Proof.
  intros Hwf Hp Hcf Hvalid.
  destruct (is_valid_value_spec board p v Hwf Hp) as (cs' & Heq & _ & Hin).
  rewrite Hvalid in Heq. injection Heq as Hnil ->.
  symmetry in Hnil. apply bool_decide_eq_true in Hnil. subst cs'.
  assert (∀ q, in_grid q → same_unit p q → cell board q ≠ v) as Hfree.
  { intros q Hq Hsame Hcell. eapply not_elem_of_nil, Hin. eauto. }
  rewrite conflict_free_forall in Hcf. apply conflict_free_forall.
  intros p1 p2 Hp1 Hp2 Hne Hsame. rewrite !cell_set.
  assert (is_Some (board_get board p)) as Hsome by by apply board_get_is_Some.
  destruct (decide (p = p1)) as [<-|Hn1]; destruct (decide (p = p2)) as [<-|Hn2].
  - done.
  - rewrite decide_True, decide_False by tauto.
    intros _ Heq'. by apply (Hfree p2).
  - rewrite decide_False, decide_True by tauto.
    intros _ Heq'. apply (Hfree p1); [done| |done]. by apply same_unit_sym.
  - rewrite !decide_False by tauto. by apply Hcf.
Qed.

Lemma conflict_free_reset board p :
  conflict_free board → conflict_free (board_set board p 0%Z).
Proof.
  rewrite !conflict_free_forall. intros Hcf p1 p2 Hp1 Hp2 Hne Hsame.
  rewrite !cell_set.
  destruct (decide (p = p1 ∧ is_Some (board_get board p))) as [H1|H1]; [done|].
  destruct (decide (p = p2 ∧ is_Some (board_get board p))) as [H2|H2].
  - intros Hnz Heq'. by apply Hnz.
  - by apply Hcf.
Qed.

Lemma solve_fuel_sound_board fuel board domains :
  kept (λ entry b, sound_board entry → sound_board b) board
       (solve_fuel fuel board domains).
Proof.
  apply solve_fuel_kept; unfold sound_board.
  - done.
  - naive_solver.
  - intros entry b p v cs Hb Hp Hvalid He. destruct (Hb He) as [Hwf Hcf].
    split; [by apply well_shaped_set|].
    eapply conflict_free_assign; [done| |done..].
    apply board_get_in_grid with entry; [tauto|by rewrite Hp].
  - intros entry b p Hb Hp He. destruct (Hb He) as [Hwf Hcf].
    split; [by apply well_shaped_set|by apply conflict_free_reset].
Qed.

(** ** The search: it ends, and with an answer *)

Lemma ends_well_logged before r : ends_well r → ends_well (logged before r).
Proof. done. Qed.

Lemma indices_well_shaped board : well_shaped board → indices board = grid.
Proof.
  intros Hwf. destruct (shape_well_shaped _ Hwf) as [H0 H1].
  unfold indices. by rewrite H0, H1.
Qed.

Lemma NoDup_grid : NoDup grid.
Proof. compute_done. Qed.

Lemma elem_of_argwhere_zero_2 board p :
  well_shaped board → board_get board p = Some 0%Z → p ∈ argwhere_zero board.
Proof.
  intros Hwf Hp. unfold argwhere_zero. rewrite list_elem_of_filter.
  split; [done|]. rewrite indices_well_shaped by done.
  apply elem_of_grid, board_get_in_grid with board; [done|by rewrite Hp].
Qed.

(** Filling an empty cell, without emptying another one, leaves fewer
    empty cells. *)
Lemma zeros_decrease board board' p :
  well_shaped board → well_shaped board' →
  (∀ q, board_get board' q = Some 0%Z → board_get board q = Some 0%Z) →
  board_get board p = Some 0%Z → board_get board' p ≠ Some 0%Z →
  length (argwhere_zero board') < length (argwhere_zero board).
Proof.
  intros Hwf Hwf' Hsub Hp Hp'.
  assert (p :: argwhere_zero board' ⊆+ argwhere_zero board) as Hle.
  { apply NoDup_submseteq.
    - constructor.
      + intros Hin. by apply elem_of_argwhere_zero in Hin.
      + unfold argwhere_zero. rewrite indices_well_shaped by done.
        apply NoDup_filter, NoDup_grid.
    - intros q [->|Hq]%elem_of_cons.
      + by apply elem_of_argwhere_zero_2.
      + apply elem_of_argwhere_zero_2; [done|].
        by apply Hsub, elem_of_argwhere_zero. }
  apply submseteq_length in Hle. cbn in Hle. lia.
Qed.

Lemma entries_ok_set board p v :
  entries_ok board → (0 ≤ v ≤ 9)%Z → entries_ok (board_set board p v).
Proof.
  intros Hok Hv. unfold entries_ok, board_set.
  apply Forall_alter; [done|]. intros row _ Hrow. by apply Forall_insert.
Qed.

Lemma get_domains_lookup board p :
  get_domains board !! p =
  if decide (p ∈ argwhere_zero board) then Some (Z.of_nat <$> seq 1 9) else None.
Proof.
  unfold get_domains.
  assert (∀ (l : list Position) (m : Domains),
            foldl (λ domains pos, <[pos := Z.of_nat <$> seq 1 9]> domains) m l !! p =
            if decide (p ∈ l) then Some (Z.of_nat <$> seq 1 9) else m !! p) as H.
  { induction l as [|x l IH]; intros m; cbn [foldl].
    - rewrite decide_False; [done|apply not_elem_of_nil].
    - rewrite IH. destruct (decide (p ∈ l)) as [Hin|Hin].
      + rewrite decide_True; [done|by apply list_elem_of_further].
      + destruct (decide (p = x)) as [->|Hne].
        * rewrite lookup_insert_eq, decide_True; [done|apply list_elem_of_here].
        * rewrite lookup_insert_ne by done.
          rewrite decide_False; [done|]. rewrite elem_of_cons. tauto. }
  rewrite H. by rewrite lookup_empty.
Qed.

Lemma domains_ok_get_domains board :
  well_shaped board → domains_ok board (get_domains board).
Proof.
  intros Hwf. split.
  - intros p Hp. rewrite get_domains_lookup, decide_True; [by eexists|].
    by apply elem_of_argwhere_zero_2.
  - intros p vs. rewrite get_domains_lookup. case_decide; [|done].
    intros [= <-]. split; [compute_done|]. cbn. repeat constructor; lia.
Qed.

Lemma domains_ok_forward_checking board board' domains unassigned position value :
  domains_ok board domains →
  (∀ q, board_get board' q = Some 0%Z → board_get board q = Some 0%Z) →
  domains_ok board' (forward_checking domains unassigned position value).
Proof.
  intros [Hkeys Hvals] Hsub. split.
  - intros p Hp. apply forward_checking_is_Some. auto.
  - intros p vs. rewrite forward_checking_lookup. case_decide; [|apply Hvals].
    destruct (domains !! p) as [vs0|] eqn:Hp; [|done]. cbn. intros [= <-].
    destruct (Hvals p vs0 Hp) as [Hnd Hrange]. split.
    + by apply NoDup_filter.
    + rewrite Forall_forall in Hrange. apply Forall_forall.
      intros v Hv%list_elem_of_filter. apply Hrange. tauto.
Qed.

Lemma any_empty_is_Some (domains : Domains) unassigned :
  Forall (λ u, is_Some (domains !! u)) unassigned →
  is_Some (any_empty domains unassigned).
Proof.
  induction 1 as [|u unassigned [vs Hu] _ IH]; cbn [any_empty]; [by eexists|].
  rewrite Hu. case_decide; [by eexists|done].
Qed.

(** A cell that is empty now was empty at entry. *)
Lemma unchanged_clues_zeros entry b q :
  unchanged_clues entry b → board_get b q = Some 0%Z →
  board_get entry q = Some 0%Z.
Proof.
  intros Hb Hq. destruct (decide (board_get entry q = Some 0%Z)) as [|Hne]; [done|].
  rewrite (Hb q Hne) in Hq. done.
Qed.

Lemma unchanged_clues_set entry b p v :
  unchanged_clues entry b → board_get entry p = Some 0%Z →
  unchanged_clues entry (board_set b p v).
Proof.
  intros Hb Hp q Hq. rewrite board_get_set.
  rewrite decide_False by congruence. by apply Hb.
Qed.

Section progress.
Variable solve_rec : Board → Domains → run.
Variable fuel : nat.
Hypothesis rec_ends : ∀ b d,
  well_shaped b → entries_ok b → domains_ok b d →
  length (argwhere_zero b) < fuel → ends_well (solve_rec b d).
Hypothesis rec_clues : ∀ b d, unchanged_clues b (board_after (solve_rec b d)).

Lemma try_values_ends domains unassigned position entry :
  well_shaped entry → domains_ok entry domains →
  Forall (λ u, board_get entry u = Some 0%Z) unassigned →
  board_get entry position = Some 0%Z →
  length (argwhere_zero entry) ≤ fuel →
  ∀ values board,
    Forall (λ v, 1 ≤ v ≤ 9)%Z values →
    well_shaped board → entries_ok board → unchanged_clues entry board →
    ends_well (try_values solve_rec domains unassigned position board values).
Proof.
  intros Hwfe Hdom Hun Hpos Hfuel.
  assert (in_grid position) as Hgrid.
  { apply board_get_in_grid with entry; [done|by rewrite Hpos]. }
  induction values as [|value values IH]; intros board Hvals Hwf Hent Hclues.
  { split_and!; [by right|done..]. }
  inversion Hvals as [|? ? Hvalue Hvals']; subst.
  cbn [try_values].
  destruct (is_valid_value_spec board position value Hwf Hgrid)
    as (cs & -> & _).
  destruct (bool_decide (cs = [])); [|by apply IH].
  set (board1 := board_set board position value).
  assert (well_shaped board1) as Hwf1 by by apply well_shaped_set.
  assert (entries_ok board1) as Hent1 by (apply entries_ok_set; [done|lia]).
  assert (unchanged_clues entry board1) as Hclues1
    by by apply unchanged_clues_set.
  destruct (any_empty_is_Some
              (forward_checking domains unassigned position value) unassigned)
    as [[] ->].
  { eapply Forall_impl; [exact Hun|]. intros u Hu.
    apply forward_checking_is_Some. by apply Hdom. }
  { by apply IH. }
  set (r := solve_rec board1 _).
  assert (ends_well r) as Hr.
  { apply rec_ends; [done..| |].
    - apply domains_ok_forward_checking with entry; [done|].
      intros q. by apply unchanged_clues_zeros.
    - eapply Nat.lt_le_trans; [|exact Hfuel].
      apply zeros_decrease with position; [done..| |done|].
      + intros q. by apply unchanged_clues_zeros.
      + unfold board1. rewrite board_get_set, decide_True by done.
        destruct (board_get_is_Some board position Hwf Hgrid) as [x ->].
        cbn. intros [= ->]. lia. }
  destruct Hr as ([Hres|Hres] & Hwfr & Hentr & Hfull); rewrite Hres.
  - split_and!; [by left|done..].
  - apply IH; [done| | |].
    + by apply well_shaped_set.
    + by apply entries_ok_set.
    + apply unchanged_clues_set; [|done].
      intros q Hq. unfold r. rewrite rec_clues.
      * by apply Hclues1.
      * by rewrite Hclues1.
Qed.
End progress.

Lemma solve_fuel_ends fuel board domains :
  well_shaped board → entries_ok board → domains_ok board domains →
  length (argwhere_zero board) < fuel →
  ends_well (solve_fuel fuel board (Some domains)).
Proof.
  revert board domains. induction fuel as [|fuel IH];
    intros board domains Hwf Hent Hdom Hfuel; [lia|].
  cbn [solve_fuel]. destruct (has_zero board) eqn:Hzero; cbn [negb].
  2: { split_and!; [by left|done..]. }
  assert (Forall (λ u, is_Some (domains !! u)) (argwhere_zero board)) as Hkeys.
  { apply Forall_forall. intros u Hu. by apply Hdom, elem_of_argwhere_zero. }
  destruct (sorted_by_is_Some (λ pos, length <$> domains !! pos)
              (argwhere_zero board)) as [sorted Hs].
  { eapply Forall_impl; [exact Hkeys|]. intros u Hu. by apply fmap_is_Some. }
  rewrite Hs. apply sorted_by_Some in Hs as [Hperm _].
  destruct sorted as [|position sorted].
  { split_and!; [by right|done..]. }
  assert (board_get board position = Some 0%Z) as Hpos.
  { apply elem_of_argwhere_zero. rewrite <-Hperm. apply list_elem_of_here. }
  destruct (proj1 Hdom position Hpos) as [values Hvalues].
  destruct (proj2 Hdom position values Hvalues) as [Hnd Hrange].
  destruct (sorted_values_spec domains (argwhere_zero board) position values
              Hvalues Hnd Hkeys) as (sorted_list & -> & Hperm' & _).
  apply ends_well_logged, (try_values_ends _ fuel) with (entry := board);
    try done.
  - intros b d. apply (solve_fuel_unchanged_clues fuel b (Some d)).
  - apply Forall_forall. intros u. apply elem_of_argwhere_zero.
  - lia.
  - by rewrite Hperm'.
Qed.

Lemma solve_ends board :
  well_shaped board → entries_ok board → ends_well (solve board).
Proof.
  intros Hwf Hent. unfold solve. rewrite solve_fuel_None.
  apply solve_fuel_ends; [done..|by apply domains_ok_get_domains|lia].
Qed.

(** A run that did not exhaust its budget is the same with a larger one. *)
Lemma try_values_more_fuel rec1 rec2 domains unassigned position :
  (∀ b d, result (rec1 b d) ≠ OutOfFuel → rec2 b d = rec1 b d) →
  ∀ values board,
    result (try_values rec1 domains unassigned position board values) ≠ OutOfFuel →
    try_values rec2 domains unassigned position board values =
    try_values rec1 domains unassigned position board values.
Proof.
  intros Hrec. induction values as [|value values IH]; intros board; [done|].
  cbn [try_values].
  destruct (is_valid_value board position value) as [[[] cs]|];
    [|by apply IH|done].
  destruct (any_empty _ unassigned) as [[]|]; [| |done].
  { cbn. intros H. by rewrite IH. }
  set (board1 := board_set board position value).
  set (new_domains := forward_checking domains unassigned position value).
  destruct (decide (result (rec1 board1 new_domains) = OutOfFuel)) as [Hout|Hout].
  { rewrite Hout. by intros []. }
  rewrite (Hrec _ _ Hout).
  destruct (result (rec1 board1 new_domains)); try done.
  cbn. intros H. by rewrite IH.
Qed.

Lemma solve_fuel_more_fuel fuel fuel' board domains :
  fuel ≤ fuel' →
  result (solve_fuel fuel board domains) ≠ OutOfFuel →
  solve_fuel fuel' board domains = solve_fuel fuel board domains.
Proof.
  revert fuel' board domains. induction fuel as [|fuel IH];
    intros fuel' board domains Hle; [by intros []|].
  destruct fuel' as [|fuel']; [lia|]. cbn [solve_fuel].
  destruct (negb (has_zero board)); [done|].
  destruct (sorted_by _ _) as [[|position sorted]|]; [done| |done].
  destruct (sorted_values _ _ _) as [values|]; [|done].
  cbn. intros H. f_equal. apply try_values_more_fuel; [|done].
  intros b d. apply IH. lia.
Qed.

(** On a 9x9 board of digits, the budget of [solve] is enough: any larger
    one gives the same run. *)
Lemma solve_any_fuel board fuel :
  well_shaped board → entries_ok board →
  length (argwhere_zero board) < fuel →
  solve_fuel fuel board None = solve board.
Proof.
  intros Hwf Hent Hfuel. apply solve_fuel_more_fuel; [lia|].
  destruct (solve_ends board Hwf Hent) as ([Hres|Hres] & _);
    unfold solve in Hres; by rewrite Hres.
Qed.

(** ** A full board without conflicts is a solution *)

Lemma units_shape :
  Forall (λ unit, NoDup unit ∧ length unit = 9 ∧ Forall in_grid unit ∧
                  Forall (λ p, Forall (same_unit p) unit) unit) units.
Proof. compute_done. Qed.

Lemma digits_once :
  Forall (λ d, length (filter (λ x, x = d) digits) = 1) digits.
Proof. compute_done. Qed.

Lemma elem_of_digits (x : Z) : (1 ≤ x ≤ 9)%Z → x ∈ digits.
Proof. unfold digits. rewrite !elem_of_cons. lia. Qed.

Lemma cell_digit board p :
  well_shaped board → entries_ok board → has_zero board = false → in_grid p →
  (1 ≤ cell board p ≤ 9)%Z.
Proof.
  intros Hwf Hent Hzero Hp. unfold cell.
  destruct (board_get_is_Some board p Hwf Hp) as [x Hx]. rewrite Hx. cbn.
  unfold board_get in Hx.
  destruct (board !! p.1) as [row|] eqn:Hrow; [|done]. cbn in Hx.
  apply list_elem_of_lookup_2 in Hrow, Hx.
  assert (x ≠ 0%Z) as Hnz.
  { intros ->. unfold has_zero in Hzero. apply bool_decide_eq_false in Hzero.
    apply Hzero. apply list_elem_of_In, in_concat. exists row.
    by rewrite <-!list_elem_of_In. }
  unfold entries_ok in Hent. rewrite Forall_forall in Hent.
  specialize (Hent row Hrow). rewrite Forall_forall in Hent.
  specialize (Hent x Hx). lia.
Qed.

Lemma full_board_valid board :
  well_shaped board → entries_ok board → has_zero board = false →
  conflict_free board → valid_solution board.
Proof.
  intros Hwf Hent Hzero Hcf. split; [done|].
  pose proof units_shape as Hunits. rewrite Forall_forall in Hunits.
  apply Forall_forall. intros unit Hunit.
  destruct (Hunits unit Hunit) as (Hnd & Hlen & Hgrid & Hsame).
  rewrite Forall_forall in Hgrid, Hsame.
  rewrite conflict_free_forall in Hcf.
  assert (cell board <$> unit ≡ₚ digits) as Hperm.
  { apply submseteq_length_Permutation.
    - apply NoDup_submseteq.
      + apply NoDup_fmap_2_strong; [|done]. intros p q Hp Hq Heq.
        destruct (decide (p = q)) as [|Hne]; [done|]. exfalso.
        specialize (Hsame p Hp). rewrite Forall_forall in Hsame.
        apply (Hcf p q); auto.
        pose proof (cell_digit board p Hwf Hent Hzero (Hgrid p Hp)). lia.
      + intros x (p & -> & Hp)%list_elem_of_fmap.
        apply elem_of_digits, cell_digit; auto.
    - by rewrite length_fmap, Hlen. }
  pose proof digits_once as Honce. rewrite Forall_forall in Honce.
  apply Forall_forall. intros d Hd. unfold occurrences.
  rewrite Hperm. by apply Honce.
Qed.

(** ** [solve]: soundness, frame and failure *)

Lemma unchanged_clues_keeps board b :
  unchanged_clues board b → keeps_clues board b.
Proof.
  intros Hb. apply Forall_forall. intros p _ Hp. unfold cell in *.
  rewrite Hb; [done|]. intros Hz. by rewrite Hz in Hp.
Qed.

(** The trace of a call starts with the board the call was given: the
    board at the entry of every nested call is on the trace. *)
Lemma trace_starts_at_entry fuel board domains :
  head (trace (solve_fuel fuel board domains)) = Some board.
Proof.
  destruct fuel as [|fuel]; [done|]. cbn [solve_fuel].
  destruct (negb (has_zero board)); [done|].
  destruct (sorted_by _ _) as [[|position sorted]|]; [done| |done].
  by destruct (sorted_values _ _ _).
Qed.

(** C2, as stated, fails on a full board that is not a solution: [solve]
    returns it at once with [True]. *)
Lemma solve_returns_invalid_full_board :
  result (solve all_ones) = Solved ∧ ¬ valid_solution (board_after (solve all_ones)).
Proof. split; compute_done. Qed.

(** C2 (amended). For every 9x9 board of digits 0-9 whose non-zero cells
    are conflict-free, if [solve] returns a board with the flag [True],
    then every row, every column and every 3x3 block of the returned board
    contains each digit 1-9 exactly once. *)
Theorem solve_sound (board : Board) :
  well_shaped board → entries_ok board → conflict_free board →
  result (solve board) = Solved →
  valid_solution (board_after (solve board)).
Proof.
  intros Hwf Hent Hcf Hres.
  destruct (solve_ends board Hwf Hent) as (_ & Hwf' & Hent' & Hfull).
  apply full_board_valid; [done..|by apply Hfull|].
  unfold solve.
  destruct (solve_fuel_sound_board (S (length (argwhere_zero board))) board None)
    as [Hafter _].
  by apply Hafter.
Qed.

Lemma solve_sound_witness : valid_solution (board_after (solve three_blanks)).
Proof.
  apply (solve_sound three_blanks); compute_done.
Defined.

(** C10. If [solve] returns a board with the flag [True], the returned
    board agrees with the input on every cell that was non-zero in the
    input; indeed every state the board goes through during the call does:
    [solve] only writes to cells that were 0 when the call began. *)
Theorem solve_keeps_clues (board : Board) :
  result (solve board) = Solved →
  keeps_clues board (board_after (solve board)) ∧
  Forall (keeps_clues board) (trace (solve board)).
Proof.
  intros _. unfold solve.
  destruct (solve_fuel_unchanged_clues (S (length (argwhere_zero board)))
              board None) as [Hafter Htrace].
  split; [by apply unchanged_clues_keeps|].
  eapply Forall_impl; [exact Htrace|]. apply unchanged_clues_keeps.
Qed.

Lemma solve_keeps_clues_witness :
  keeps_clues three_blanks (board_after (solve three_blanks)) ∧
  Forall (keeps_clues three_blanks) (trace (solve three_blanks)).
Proof.
  apply (solve_keeps_clues three_blanks). compute_done.
Defined.

(** C7. During a call of [solve] on a 9x9 board whose non-zero cells are
    conflict-free, every state of the board (the board at the entry of the
    call and of every nested call, and the board after each write) and the
    board left at the end are conflict-free: no two non-zero cells sharing
    a row, a column or a block carry the same value. *)
Theorem solve_conflict_free_throughout (board : Board) :
  well_shaped board → conflict_free board →
  Forall conflict_free (trace (solve board)) ∧
  conflict_free (board_after (solve board)).
Proof.
  intros Hwf Hcf. unfold solve.
  destruct (solve_fuel_sound_board (S (length (argwhere_zero board))) board None)
    as [Hafter Htrace].
  split.
  - eapply Forall_impl; [exact Htrace|]. intros b Hb. by apply Hb.
  - by apply Hafter.
Qed.

Lemma solve_conflict_free_throughout_witness :
  Forall conflict_free (trace (solve row0_blank)) ∧
  conflict_free (board_after (solve row0_blank)).
Proof.
  apply (solve_conflict_free_throughout row0_blank); compute_done.
Defined.

(** C8. On a conflict-free 9x9 board of digits 0-9 that has no valid
    completion, [solve] ends without raising and returns [(None, False)]. *)
Theorem solve_reports_unsolvable (board : Board) :
  well_shaped board → entries_ok board → conflict_free board →
  (∀ full, ¬ completion board full) →
  result (solve board) = Unsolvable.
Proof.
  intros Hwf Hent Hcf Hnone.
  destruct (solve_ends board Hwf Hent) as ([Hres|Hres] & Hwf' & Hent' & Hfull);
    [|done].
  exfalso. apply (Hnone (board_after (solve board))). split.
  - apply full_board_valid; [done..|by apply Hfull|].
    unfold solve.
    destruct (solve_fuel_sound_board (S (length (argwhere_zero board))) board
                None) as [Hafter _].
    by apply Hafter.
  - apply unchanged_clues_keeps. unfold solve.
    apply (solve_fuel_unchanged_clues (S (length (argwhere_zero board))) board
             None).
Qed.

(** [dead_end] has no completion: its cell (0,8) can only take 9, which
    its column already holds. *)
Lemma dead_end_no_completion : ∀ full, ¬ completion dead_end full.
Proof.
  intros full [[_ Hunits] Hclues].
  rewrite Forall_forall in Hunits. unfold keeps_clues in Hclues.
  rewrite Forall_forall in Hclues.
  assert (row_cells 9 0 ∈ units) as Hr by compute_done.
  assert (col_cells 9 8 ∈ units) as Hc by compute_done.
  assert (9%Z ∈ digits) as H9 by compute_done.
  apply Hunits in Hr, Hc. rewrite Forall_forall in Hr, Hc.
  specialize (Hr _ H9). specialize (Hc _ H9). clear Hunits H9.
  assert (∀ p v, in_grid p → cell dead_end p = v → v ≠ 0%Z → cell full p = v)
    as Hkeep.
  { intros p v Hp <- Hv. apply Hclues; [by apply elem_of_grid|done]. }
  unfold occurrences in Hr, Hc.
  cbn [row_cells col_cells fmap list_fmap seq] in Hr, Hc.
  rewrite (Hkeep (0, 0) 1%Z), (Hkeep (0, 1) 2%Z), (Hkeep (0, 2) 3%Z),
    (Hkeep (0, 3) 4%Z), (Hkeep (0, 4) 5%Z), (Hkeep (0, 5) 6%Z),
    (Hkeep (0, 6) 7%Z), (Hkeep (0, 7) 8%Z) in Hr by (done || compute_done).
  rewrite (Hkeep (1, 8) 9%Z) in Hc by (done || compute_done).
  rewrite !filter_cons in Hr. rewrite 2!filter_cons in Hc.
  rewrite (decide_True (P := 9%Z = 9%Z)) in Hc by done.
  repeat (rewrite decide_False in Hr by lia).
  destruct (decide (cell full (0, 8) = 9%Z)) as [Hx|Hx].
  - cbn in Hc. lia.
  - cbn in Hr. lia.
Qed.

Lemma solve_reports_unsolvable_witness : result (solve dead_end) = Unsolvable.
Proof.
  apply (solve_reports_unsolvable dead_end);
    [compute_done..|exact dead_end_no_completion].
Defined.

(** C3 fails on [row0_blank], the reference grid with its first row
    cleared: the board is conflict-free and [pre_solved] completes it, yet
    [solve] returns [(None, False)]. When the last cell of the row is
    reached its domain is the single value 2; [forward_checking] removes
    the 2 from the cell's own entry, the emptiness test takes the branch
    for dead, and no candidate is left. *)
Theorem solve_incomplete_on_row0_blank :
  well_shaped row0_blank ∧ entries_ok row0_blank ∧ conflict_free row0_blank ∧
  completion row0_blank pre_solved ∧
  result (solve row0_blank) = Unsolvable.
Proof. split_and!; compute_done. Qed.

(** The all-zero board is solved. *)
Lemma solve_empty_board :
  result (solve empty_board) = Solved ∧
  completion empty_board (board_after (solve empty_board)).
Proof. split; compute_done. Qed.

(** C1 fails on the same run: the nested call that receives the grid with
    only (0,8) empty assigns 2, finds the cell's own entry emptied by
    [forward_checking], skips the reset and returns failure with the 2
    still in place; the failing call at the top hands back [row0_blank]
    with a 2 at (0,8). *)
Theorem solve_failure_leaves_assignment :
  result (solve_fuel 2 (board_set pre_solved (0, 8) 0%Z)
            (Some {[ (0, 8) := [2%Z] ]})) = Unsolvable ∧
  board_after (solve_fuel 2 (board_set pre_solved (0, 8) 0%Z)
                 (Some {[ (0, 8) := [2%Z] ]})) = pre_solved ∧
  result (solve row0_blank) = Unsolvable ∧
  board_after (solve row0_blank) = board_set row0_blank (0, 8) 2%Z ∧
  board_after (solve row0_blank) ≠ row0_blank.
Proof.
  split_and!; [vm_compute; reflexivity..|].
  intros H. apply (f_equal (λ b, cell b (0, 8))) in H. vm_compute in H.
  discriminate H.
Qed.

(** * Further properties of the code *)

(** ** [get_domains], [remove_value], [forward_checking] *)

(** X1. [get_domains] gives every empty cell of a 9x9 board the candidate
    list 1..9 and has no entry for any other position. *)
Theorem get_domains_entries (board : Board) (p : Position) :
  well_shaped board →
  get_domains board !! p =
  if decide (board_get board p = Some 0%Z) then Some digits else None.
Proof.
  intros Hwf. rewrite get_domains_lookup.
  destruct (decide (board_get board p = Some 0%Z)) as [Hp|Hp].
  - rewrite decide_True; [done|by apply elem_of_argwhere_zero_2].
  - rewrite decide_False; [done|]. intros Hin. by apply elem_of_argwhere_zero in Hin.
Qed.

Lemma get_domains_entries_witness :
  get_domains three_blanks !! (4, 4) =
  if decide (board_get three_blanks (4, 4) = Some 0%Z) then Some digits else None.
Proof. apply (get_domains_entries three_blanks (4, 4)). compute_done. Defined.

(** X2. [remove_value] keeps the keys of the table: a position of the
    region without an entry is skipped (no [KeyError], no new entry); an
    entry of the region loses the value and keeps the order of the other
    candidates; every other entry is unchanged. *)
Theorem remove_value_entries
    (domains : Domains) (value : Z) (region : list Position) :
  dom (remove_value domains value region) = dom domains ∧
  ∀ u, remove_value domains value region !! u =
       if decide (u ∈ region) then filter (λ v, v ≠ value) <$> domains !! u
       else domains !! u.
Proof.
  split; [|intros u; apply remove_value_lookup].
  apply set_eq. intros u. rewrite !elem_of_dom, remove_value_lookup.
  case_decide; [|done]. apply fmap_is_Some.
Qed.

(** X3. [forward_checking] keeps the keys of the table and rewrites exactly
    the entries of the listed cells that share the row, the column or the
    3x3 block of the position (the position itself when it is listed): such
    an entry loses the value, every other entry is the entry of the input
    table. *)
Theorem forward_checking_entries
    (domains : Domains) (unassigned : list Position) (position : Position)
    (value : Z) :
  dom (forward_checking domains unassigned position value) = dom domains ∧
  ∀ u, forward_checking domains unassigned position value !! u =
       if decide (u ∈ unassigned ∧ same_unit position u)
       then filter (λ v, v ≠ value) <$> domains !! u
       else domains !! u.
Proof.
  split; [|intros u; apply forward_checking_lookup].
  apply set_eq. intros u. rewrite !elem_of_dom.
  apply forward_checking_is_Some.
Qed.

(** X4. Forward checking twice for the same assignment is forward checking
    once. *)
Theorem forward_checking_idempotent
    (domains : Domains) (unassigned : list Position) (position : Position)
    (value : Z) :
  forward_checking (forward_checking domains unassigned position value)
    unassigned position value
  = forward_checking domains unassigned position value.
Proof.
  apply map_eq. intros u. rewrite !forward_checking_lookup.
  case_decide; [|done].
  destruct (domains !! u); cbn; [|done]. by rewrite filter_filter_same.
Qed.

(** X5. Forward checking for two assignments gives the same table in
    either order. *)
Theorem forward_checking_commute
    (domains : Domains) (unassigned : list Position)
    (p q : Position) (v w : Z) :
  forward_checking (forward_checking domains unassigned p v) unassigned q w
  = forward_checking (forward_checking domains unassigned q w) unassigned p v.
Proof.
  apply map_eq. intros u. rewrite !forward_checking_lookup.
  repeat case_decide; try done.
  destruct (domains !! u) as [vs|]; cbn; [|done]. f_equal.
  rewrite !list_filter_filter. apply list_filter_iff. tauto.
Qed.

(** ** [is_valid_value] *)

(** X6. On a conflict-free 9x9 board, for a non-zero value that the queried
    cell does not hold already, [is_valid_value] answers [True] exactly
    when writing the value into the cell leaves the board conflict-free. *)
Theorem is_valid_value_exact
    (board : Board) (position : Position) (value : Z)
    (valid : bool) (conflicts : list Position) :
  well_shaped board → conflict_free board → in_grid position →
  value ≠ 0%Z → cell board position ≠ value →
  is_valid_value board position value = Some (valid, conflicts) →
  (valid = true ↔ conflict_free (board_set board position value)).
Proof.
  intros Hwf Hcf Hpos Hv Hown Heq. split.
  - intros ->. by eapply conflict_free_assign.
  - intros Hcf'. destruct valid; [done|]. exfalso.
    destruct (is_valid_value_spec board position value Hwf Hpos)
      as (cs & Heq' & _ & Hin).
    rewrite Heq in Heq'. injection Heq' as Hnil <-.
    symmetry in Hnil. apply bool_decide_eq_false in Hnil.
    destruct conflicts as [|q conflicts]; [done|].
    destruct (proj1 (Hin q) (list_elem_of_here _ _)) as (Hq & Hsame & Hcell).
    assert (position ≠ q) as Hne by (intros ->; done).
    rewrite conflict_free_forall in Hcf'.
    apply (Hcf' position q Hpos Hq Hne Hsame); rewrite !cell_set.
    + rewrite decide_True; [done|]. split; [done|by apply board_get_is_Some].
    + rewrite decide_True by (split; [done|by apply board_get_is_Some]).
      rewrite decide_False by tauto. done.
Qed.

Lemma is_valid_value_exact_witness :
  true = true ↔ conflict_free (board_set three_blanks (4, 4) 5%Z).
Proof.
  apply (is_valid_value_exact three_blanks (4, 4) 5%Z true []);
    [compute_done..|vm_compute; reflexivity].
Defined.

(** X7. On a 9x9 board, a position outside the grid makes [is_valid_value]
    raise ([IndexError]). *)
Theorem is_valid_value_outside_grid
    (board : Board) (position : Position) (value : Z) :
  well_shaped board → ¬ in_grid position →
  is_valid_value board position value = None.
Proof.
  intros Hwf Hout. destruct position as [row col].
  destruct (shape_well_shaped _ Hwf) as [Hs0 Hs1].
  unfold is_valid_value. rewrite Hs0, Hs1.
  destruct (decide (row < 9)) as [Hrow|Hrow].
  - assert (¬ col < 9) as Hcol by (intros ?; apply Hout; by split).
    rewrite scan_readable.
    2: { apply Forall_forall. intros q [Hq1 Hq2]%elem_of_row_cells.
         apply board_get_is_Some; [done|]. split; [by rewrite Hq1|done]. }
    cbn [mbind option_bind].
    assert (board_get board (0, col) = None) as Hnone.
    { destruct (board_get board (0, col)) eqn:Hget; [|done].
      destruct (board_get_in_grid board (0, col) Hwf) as [_ Hc]; [by eexists|].
      cbn in Hc. lia. }
    cbn [col_cells seq fmap list_fmap scan]. by rewrite Hnone.
  - assert (board_get board (row, 0) = None) as Hnone.
    { destruct (board_get board (row, 0)) eqn:Hget; [|done].
      destruct (board_get_in_grid board (row, 0) Hwf) as [Hr _]; [by eexists|].
      cbn in Hr. lia. }
    cbn [row_cells seq fmap list_fmap scan]. by rewrite Hnone.
Qed.

Lemma is_valid_value_outside_grid_witness :
  is_valid_value pre_solved (3, 9) 5%Z = None.
Proof.
  apply (is_valid_value_outside_grid pre_solved (3, 9) 5%Z); [compute_done|].
  unfold in_grid. cbn. lia.
Defined.

(** ** The orderings: Python's stable [sorted] *)

Lemma insert_by_filter {A} (key : A → nat) (k : nat) (x : A) (l : list A) :
  filter (λ y, key y = k) (insert_by key x l) = filter (λ y, key y = k) (x :: l).
Proof.
  induction l as [|y l IH]; cbn [insert_by]; [done|].
  case_decide as Hxy; [done|].
  rewrite filter_cons, IH, !filter_cons.
  repeat case_decide; try done. lia.
Qed.

Lemma sort_by_filter {A} (key : A → nat) (k : nat) (l : list A) :
  filter (λ y, key y = k) (sort_by key l) = filter (λ y, key y = k) l.
Proof.
  unfold sort_by. induction l as [|x l IH]; cbn [foldr]; [done|].
  by rewrite insert_by_filter, !filter_cons, IH.
Qed.

Lemma insert_by_fmap {A} (f : A → nat) (x : A) (l : list A) :
  insert_by fst (f x, x) ((λ y, (f y, y)) <$> l) =
  (λ y, (f y, y)) <$> insert_by f x l.
Proof.
  induction l as [|y l IH]; [done|]. cbn [insert_by fmap list_fmap fst].
  case_decide; [done|]. cbn [fmap list_fmap]. f_equal. exact IH.
Qed.

(** When the keys do not raise, [sorted] is the insertion sort by the
    key. *)
Lemma sorted_by_total {A} (f : A → nat) (key : A → option nat) (l : list A) :
  (∀ x, x ∈ l → key x = Some (f x)) → sorted_by key l = Some (sort_by f l).
Proof.
  intros Hkey. unfold sorted_by.
  assert (mapM (λ x, k ← key x; Some (k, x)) l = Some ((λ y, (f y, y)) <$> l))
    as ->.
  { apply mapM_Some_2. apply Forall2_fmap_r, Forall_Forall2_diag.
    apply Forall_forall. intros x Hx. by rewrite (Hkey x Hx). }
  cbn [mbind option_bind]. f_equal.
  assert (sort_by fst ((λ y, (f y, y)) <$> l) = (λ y, (f y, y)) <$> sort_by f l)
    as ->.
  { unfold sort_by. induction l as [|x l IH]; [done|]. cbn [foldr fmap list_fmap].
    rewrite IH by (intros y Hy; apply Hkey; by apply list_elem_of_further).
    apply insert_by_fmap. }
  rewrite <-list_fmap_compose. by rewrite list_fmap_id.
Qed.

Lemma filter_ext_in {A} (P Q : A → Prop)
    `{∀ x, Decision (P x)} `{∀ x, Decision (Q x)} (l : list A) :
  (∀ x, x ∈ l → (P x ↔ Q x)) → filter P l = filter Q l.
Proof.
  induction l as [|x l IH]; intros Hext; [done|].
  rewrite !filter_cons, IH by (intros y Hy; apply Hext; by apply list_elem_of_further).
  pose proof (Hext x (list_elem_of_here _ _)).
  repeat case_decide; tauto || done.
Qed.

(** [sorted_values] is the insertion sort of the candidates by the number
    of listed cells that have the value as a candidate. *)
Lemma sorted_values_sort_by (domains : Domains) unassigned position values :
  domains !! position = Some values → NoDup values →
  Forall (λ u, is_Some (domains !! u)) unassigned →
  sorted_values domains unassigned position =
  Some (sort_by (listing domains unassigned) values).
Proof.
  intros Hpos Hnd Hdom. unfold sorted_values. rewrite Hpos.
  cbn [mbind option_bind].
  destruct (foldlM_count_affected domains unassigned values Hdom Hnd
              (list_to_map ((λ v, (v, 0)) <$> values)))
    as (affected & -> & Haff).
  cbn [mbind option_bind].
  rewrite dict_keys_NoDup by (done || intros; apply not_elem_of_nil).
  apply sorted_by_total. intros v Hv.
  rewrite Haff, affected_initial, !decide_True by done. cbn. f_equal. lia.
Qed.

(** X8. Ties keep the order of the domain: the candidates that are listed
    by the same number of other cells come out of [sorted_values] in the
    order in which the cell's domain lists them. *)
Theorem sorted_values_stable
    (domains : Domains) (unassigned : list Position) (position : Position)
    (values : list Z) :
  domains !! position = Some values → NoDup values →
  Forall (λ u, is_Some (domains !! u)) unassigned →
  ∃ sorted_list,
    sorted_values domains unassigned position = Some sorted_list ∧
    ∀ k, filter (λ v, listing_others domains unassigned position v = k) sorted_list
         = filter (λ v, listing_others domains unassigned position v = k) values.
Proof.
  intros Hpos Hnd Hdom. eexists. split; [by apply sorted_values_sort_by|].
  intros k.
  set (c := length (filter (λ u, u = position) unassigned)).
  assert (∀ l : list Z, (∀ v, v ∈ l → v ∈ values) →
            filter (λ v, listing_others domains unassigned position v = k) l =
            filter (λ v, listing domains unassigned v = k + c) l) as Hfilter.
  { intros l Hl. apply filter_ext_in. intros v Hv.
    rewrite (listing_split _ _ _ _ v Hpos (Hl v Hv)). fold c. lia. }
  rewrite !Hfilter; [apply sort_by_filter|done|].
  intros v. by rewrite sort_by_Permutation.
Qed.

Lemma sorted_values_stable_witness :
  ∃ sorted_list,
    sorted_values (<[(0, 1) := [1; 2]%Z]> (<[(0, 0) := [1; 2; 3]%Z]> ∅))
      [(0, 0); (0, 1)] (0, 0) = Some sorted_list ∧
    ∀ k,
      filter (λ v, listing_others
                     (<[(0, 1) := [1; 2]%Z]> (<[(0, 0) := [1; 2; 3]%Z]> ∅))
                     [(0, 0); (0, 1)] (0, 0) v = k) sorted_list
      = filter (λ v, listing_others
                       (<[(0, 1) := [1; 2]%Z]> (<[(0, 0) := [1; 2; 3]%Z]> ∅))
                       [(0, 0); (0, 1)] (0, 0) v = k) [1; 2; 3]%Z.
Proof.
  apply (sorted_values_stable
           (<[(0, 1) := [1; 2]%Z]> (<[(0, 0) := [1; 2; 3]%Z]> ∅))
           [(0, 0); (0, 1)] (0, 0) [1; 2; 3]%Z).
  - vm_compute. reflexivity.
  - compute_done.
  - compute_done.
Defined.

Lemma count_affected_None (domains : Domains) unassigned (affected : gmap Z nat)
    value u :
  u ∈ unassigned → domains !! u = None →
  count_affected domains unassigned affected value = None.
Proof.
  unfold count_affected. intros Hin Hu. revert affected.
  induction Hin as [u unassigned|u u' unassigned Hin IH]; intros affected;
    cbn [foldlM].
  - by rewrite Hu.
  - destruct (domains !! u'); cbn [mbind option_bind]; [by apply IH|done].
Qed.

Lemma foldlM_count_affected_keys (domains : Domains) unassigned values :
  Forall (λ u, is_Some (domains !! u)) unassigned →
  ∀ affected : gmap Z nat,
  ∃ affected',
    foldlM (count_affected domains unassigned) affected values = Some affected' ∧
    ∀ w, is_Some (affected' !! w) ↔ is_Some (affected !! w).
Proof.
  intros Hdom. induction values as [|v values IH]; intros affected.
  { by exists affected. }
  cbn [foldlM].
  destruct (count_affected_lookup domains unassigned affected v Hdom)
    as (affected1 & -> & H1).
  cbn [mbind option_bind].
  destruct (IH affected1) as (affected' & -> & Hl).
  exists affected'. split; [done|]. intros w. rewrite Hl, H1.
  case_decide; [apply fmap_is_Some|done].
Qed.

Lemma dict_keys_subset seen values v : v ∈ dict_keys seen values → v ∈ values.
Proof.
  revert seen. induction values as [|x values IH]; intros seen; cbn [dict_keys].
  { done. }
  case_decide.
  - intros Hv. apply list_elem_of_further. by eapply IH.
  - intros [->|Hv]%elem_of_cons; [apply list_elem_of_here|].
    apply list_elem_of_further. by eapply IH.
Qed.

(** X9. [sorted_values] raises ([KeyError]) exactly when the selected
    position has no entry in the table, or it has candidates and some
    listed cell has no entry. *)
Theorem sorted_values_raises
    (domains : Domains) (unassigned : list Position) (position : Position) :
  is_Some (sorted_values domains unassigned position) ↔
  ∃ values, domains !! position = Some values ∧
            (values = [] ∨ Forall (λ u, is_Some (domains !! u)) unassigned).
Proof.
  unfold sorted_values. split.
  - destruct (domains !! position) as [values|]; [|by intros [? [=]]].
    cbn [mbind option_bind]. intros Hsome. exists values. split; [done|].
    destruct values as [|v values]; [by left|right].
    apply Forall_forall. intros u Hu.
    destruct (domains !! u) eqn:Hdu; [by eexists|]. exfalso.
    cbn [foldlM] in Hsome.
    rewrite (count_affected_None _ _ _ _ u Hu Hdu) in Hsome.
    by destruct Hsome as [? [=]].
  - intros (values & -> & Hcase). cbn [mbind option_bind].
    destruct Hcase as [->|Hdom]; [by eexists|].
    destruct (foldlM_count_affected_keys domains unassigned values Hdom
                (list_to_map ((λ v, (v, 0)) <$> values)))
      as (affected & -> & Hkeys).
    cbn [mbind option_bind]. apply sorted_by_is_Some, Forall_forall.
    intros v Hv%dict_keys_subset.
    rewrite Hkeys, affected_initial, decide_True by done. by eexists.
Qed.

Lemma sorted_by_keys {A} (key : A → option nat) (l l' : list A) :
  sorted_by key l = Some l' → Forall (λ x, is_Some (key x)) l.
Proof.
  unfold sorted_by. intros Hs.
  destruct (mapM (λ x, k ← key x; Some (k, x)) l) as [keyed|] eqn:Hm; [|done].
  assert (is_Some (mapM (λ x, k ← key x; Some (k, x)) l)) as Hsome
    by (by rewrite Hm).
  apply mapM_is_Some_1 in Hsome. eapply Forall_impl; [exact Hsome|].
  intros x [y Hy]. cbn in Hy. destruct (key x); [by eexists|done].
Qed.

(** X10. The cell [solve] branches on: the first element of the list of
    empty cells sorted by domain size has a domain no larger than any
    other listed cell, and is the first listed cell with a domain of that
    size. *)
Theorem mrv_selection
    (domains : Domains) (unassigned : list Position) (position : Position)
    (rest : list Position) :
  sorted_by (λ pos, length <$> domains !! pos) unassigned
    = Some (position :: rest) →
  ∃ candidates,
    domains !! position = Some candidates ∧
    (∀ u cs, u ∈ unassigned → domains !! u = Some cs →
             length candidates ≤ length cs) ∧
    head (filter (λ u, length <$> domains !! u = Some (length candidates))
            unassigned) = Some position.
Proof.
  intros Hs. pose proof (sorted_by_keys _ _ _ Hs) as Hkeys.
  rewrite Forall_forall in Hkeys.
  set (f := λ pos : Position, default 0 (length <$> domains !! pos)).
  rewrite (sorted_by_total f) in Hs.
  2: { intros u Hu. destruct (Hkeys u Hu) as [k Hk]. unfold f. by rewrite Hk. }
  injection Hs as Hs.
  assert (position ∈ unassigned) as Hpos.
  { rewrite <-(sort_by_Permutation f), Hs. apply list_elem_of_here. }
  destruct (Hkeys position Hpos) as [k Hk].
  destruct (domains !! position) as [candidates|] eqn:Hcand; [|done].
  cbn in Hk. injection Hk as <-.
  assert (f position = length candidates) as Hf
    by (unfold f; by rewrite Hcand).
  exists candidates. split_and!; [done| |].
  - intros u cs Hu Hcs.
    assert (f u = length cs) as Hfu by (unfold f; by rewrite Hcs).
    rewrite <-(sort_by_Permutation f), Hs in Hu.
    pose proof (sort_by_sorted f unassigned) as Hsorted. rewrite Hs in Hsorted.
    apply StronglySorted_inv in Hsorted as [_ Hall].
    apply elem_of_cons in Hu as [->|Hu].
    + rewrite Hcand in Hcs. by injection Hcs as ->.
    + rewrite Forall_forall in Hall. specialize (Hall u Hu).
      unfold le_key in Hall. lia.
  - rewrite (filter_ext_in _ (λ u, f u = length candidates)).
    2: { intros u Hu. destruct (Hkeys u Hu) as [ku Hku]. unfold f.
         rewrite Hku. cbn. split; [by intros [= ->]|by intros ->]. }
    rewrite <-sort_by_filter, Hs, filter_cons, decide_True by done. done.
Qed.

Lemma mrv_selection_witness :
  ∃ candidates,
    (<[(0, 1) := [1; 2]%Z]> (<[(0, 0) := [1; 2; 3]%Z]> ∅ : Domains)) !! (0, 1)
      = Some candidates ∧
    (∀ u cs, u ∈ [(0, 0); (0, 1)] →
             (<[(0, 1) := [1; 2]%Z]> (<[(0, 0) := [1; 2; 3]%Z]> ∅ : Domains))
               !! u = Some cs →
             length candidates ≤ length cs) ∧
    head (filter (λ u, length <$>
                         (<[(0, 1) := [1; 2]%Z]>
                            (<[(0, 0) := [1; 2; 3]%Z]> ∅ : Domains)) !! u
                       = Some (length candidates))
            [(0, 0); (0, 1)]) = Some (0, 1).
Proof.
  apply (mrv_selection
           (<[(0, 1) := [1; 2]%Z]> (<[(0, 0) := [1; 2; 3]%Z]> ∅))
           [(0, 0); (0, 1)] (0, 1) [(0, 0)]).
  vm_compute. reflexivity.
Defined.

(** ** [solve] *)

Lemma has_zero_argwhere board p :
  p ∈ argwhere_zero board → has_zero board = true.
Proof.
  intros Hp%elem_of_argwhere_zero. unfold has_zero. apply bool_decide_eq_true.
  unfold board_get in Hp.
  destruct (board !! p.1) as [row|] eqn:Hrow; [|done]. cbn in Hp.
  apply list_elem_of_lookup_2 in Hrow, Hp.
  apply list_elem_of_In, in_concat. exists row. by rewrite <-!list_elem_of_In.
Qed.

Lemma sorted_by_head_least {A} (key : A → option nat) (l : list A) x rest :
  sorted_by key l = Some (x :: rest) →
  x ∈ l ∧
  ∀ y kx ky, y ∈ l → key x = Some kx → key y = Some ky → kx ≤ ky.
Proof.
  intros [Hperm Hsorted]%sorted_by_Some.
  split; [rewrite <-Hperm; apply list_elem_of_here|].
  intros y kx ky Hy Hkx Hky. rewrite <-Hperm in Hy.
  apply StronglySorted_inv in Hsorted as [_ Hall].
  apply elem_of_cons in Hy as [->|Hy].
  - rewrite Hkx in Hky. injection Hky as ->. done.
  - rewrite Forall_forall in Hall. by apply (Hall y Hy).
Qed.

(** X11. On a 9x9 board of digits 0-9, [solve] never raises: it returns
    [(board, True)] or [(None, False)]; the recursion is never deeper than
    the number of empty cells plus one, so any larger budget of nested
    calls gives the same run. *)
Theorem solve_never_raises (board : Board) :
  well_shaped board → entries_ok board →
  (result (solve board) = Solved ∨ result (solve board) = Unsolvable) ∧
  ∀ fuel, length (argwhere_zero board) < fuel →
          solve_fuel fuel board None = solve board.
Proof.
  intros Hwf Hent. split.
  - by destruct (solve_ends board Hwf Hent) as (Hres & _).
  - intros fuel Hfuel. by apply solve_any_fuel.
Qed.

Lemma solve_never_raises_witness :
  (result (solve dead_end) = Solved ∨ result (solve dead_end) = Unsolvable) ∧
  ∀ fuel, length (argwhere_zero dead_end) < fuel →
          solve_fuel fuel dead_end None = solve dead_end.
Proof. apply (solve_never_raises dead_end); compute_done. Defined.

(** X12. On a conflict-free 9x9 board of digits 0-9, a board that [solve]
    returns with [True] is a valid completion of the input: a valid grid
    that keeps every clue. *)
Theorem solve_answer_is_completion (board : Board) :
  well_shaped board → entries_ok board → conflict_free board →
  result (solve board) = Solved →
  completion board (board_after (solve board)).
Proof.
  intros Hwf Hent Hcf Hres.
  destruct (solve_ends board Hwf Hent) as (_ & Hwf' & Hent' & Hfull).
  unfold solve in *. split.
  - apply full_board_valid; [done..|by apply Hfull|].
    destruct (solve_fuel_sound_board (S (length (argwhere_zero board))) board
                None) as [Hafter _].
    by apply Hafter.
  - apply unchanged_clues_keeps.
    apply (solve_fuel_unchanged_clues (S (length (argwhere_zero board))) board
             None).
Qed.

Lemma solve_answer_is_completion_witness :
  completion three_blanks (board_after (solve three_blanks)).
Proof. apply (solve_answer_is_completion three_blanks); compute_done. Defined.

(** X13. When the table passed to [solve] has no entry for some empty cell
    of the board, the call raises ([KeyError], while sorting the empty
    cells by domain size) before it writes anything. *)
Theorem solve_missing_entry
    (fuel : nat) (board : Board) (domains : Domains) (p : Position) :
  p ∈ argwhere_zero board → domains !! p = None →
  solve_fuel (S fuel) board (Some domains) = Run [board] board Raised.
Proof.
  intros Hp Hnone. cbn [solve_fuel].
  rewrite (has_zero_argwhere board p Hp). cbn [negb].
  destruct (sorted_by _ (argwhere_zero board)) as [sorted|] eqn:Hs; [|done].
  apply sorted_by_keys in Hs. rewrite Forall_forall in Hs.
  destruct (Hs p Hp) as [k Hk]. by rewrite Hnone in Hk.
Qed.

Lemma solve_missing_entry_witness :
  solve_fuel 1 three_blanks (Some ∅) = Run [three_blanks] three_blanks Raised.
Proof.
  apply (solve_missing_entry 0 three_blanks ∅ (4, 4)); [compute_done|].
  apply lookup_empty.
Defined.

(** X14. When every empty cell has an entry and the entry of some empty
    cell is the empty list, [solve] returns [(None, False)] at once and
    leaves the board as it was. *)
Theorem solve_empty_domain
    (fuel : nat) (board : Board) (domains : Domains) (p : Position) :
  Forall (λ u, is_Some (domains !! u)) (argwhere_zero board) →
  p ∈ argwhere_zero board → domains !! p = Some [] →
  solve_fuel (S fuel) board (Some domains) = Run [board] board Unsolvable.
Proof.
  intros Hkeys Hp Hempty. cbn [solve_fuel].
  rewrite (has_zero_argwhere board p Hp). cbn [negb].
  destruct (sorted_by_is_Some (λ pos, length <$> domains !! pos)
              (argwhere_zero board)) as [sorted Hs].
  { eapply Forall_impl; [exact Hkeys|]. intros u Hu. by apply fmap_is_Some. }
  rewrite Hs. destruct sorted as [|position rest]; [done|].
  apply sorted_by_head_least in Hs as [Hpos Hleast].
  rewrite Forall_forall in Hkeys. destruct (Hkeys position Hpos) as [cs Hcs].
  specialize (Hleast p (length cs) 0 Hp). rewrite Hcs, Hempty in Hleast.
  specialize (Hleast eq_refl eq_refl).
  destruct cs as [|c cs]; [|cbn in Hleast; lia].
  unfold sorted_values. rewrite Hcs. done.
Qed.

Lemma solve_empty_domain_witness :
  solve_fuel 1 three_blanks
    (Some (<[(4, 4) := []]> (get_domains three_blanks)))
  = Run [three_blanks] three_blanks Unsolvable.
Proof.
  apply (solve_empty_domain 0 three_blanks
           (<[(4, 4) := []]> (get_domains three_blanks)) (4, 4)).
  - compute_done.
  - compute_done.
  - apply lookup_insert_eq.
Defined.

(** ** [generate]: the shuffle *)

Lemma lookup_exchange {A} (l : list A) (i j : nat) (xi xj : A) (k : nat) :
  l !! i = Some xi → l !! j = Some xj →
  <[j := xi]> (<[i := xj]> l) !! k = l !! exchange i j k.
Proof.
  intros Hi Hj. unfold exchange.
  pose proof (lookup_lt_Some _ _ _ Hi). pose proof (lookup_lt_Some _ _ _ Hj).
  rewrite list_lookup_insert, length_insert.
  destruct (decide (k = j)) as [->|Hkj].
  - by rewrite decide_True.
  - rewrite decide_False by (intros [? _]; congruence).
    rewrite list_lookup_insert. destruct (decide (k = i)) as [->|Hki].
    + by rewrite decide_True.
    + rewrite decide_False; [done|]. intros [? _]; congruence.
Qed.

Lemma swap_rows_get board r1 r2 :
  well_shaped board → r1 < 9 → r2 < 9 →
  ∃ board', swap_rows board r1 r2 = Some board' ∧ well_shaped board' ∧
            ∀ p, board_get board' p = board_get board (exchange_rows r1 r2 p).
Proof.
  intros [Hlen Hrows] H1 H2. unfold swap_rows.
  destruct (lookup_lt_is_Some_2 board r1) as [row1 Hr1]; [lia|].
  destruct (lookup_lt_is_Some_2 board r2) as [row2 Hr2]; [lia|].
  rewrite Hr1, Hr2. cbn [mbind option_bind]. eexists. split; [done|]. split.
  - split; [by rewrite !length_insert|].
    rewrite Forall_lookup in Hrows.
    apply Forall_insert; [apply Forall_insert|]; [by apply Forall_lookup|eauto..].
  - intros p. unfold board_get, exchange_rows. cbn [fst snd].
    by rewrite (lookup_exchange board r1 r2 row1 row2).
Qed.

Lemma swap_cols_get board c1 c2 :
  well_shaped board → c1 < 9 → c2 < 9 →
  ∃ board', swap_cols board c1 c2 = Some board' ∧ well_shaped board' ∧
            ∀ p, board_get board' p = board_get board (exchange_cols c1 c2 p).
Proof.
  intros [Hlen Hrows] H1 H2. unfold swap_cols.
  set (g := λ row : list Z,
              <[c2 := default 0%Z (row !! c1)]>
                (<[c1 := default 0%Z (row !! c2)]> row)).
  exists (g <$> board). rewrite Forall_forall in Hrows. split_and!.
  - apply mapM_Some_2. apply Forall2_fmap_r, Forall_Forall2_diag.
    apply Forall_forall. intros row Hrow. specialize (Hrows row Hrow).
    destruct (lookup_lt_is_Some_2 row c1) as [x1 Hx1]; [lia|].
    destruct (lookup_lt_is_Some_2 row c2) as [x2 Hx2]; [lia|].
    unfold g. cbn. by rewrite Hx1, Hx2.
  - split; [by rewrite length_fmap|].
    apply Forall_fmap, Forall_forall. intros row Hrow. cbn. unfold g.
    rewrite !length_insert. by apply Hrows.
  - intros p. unfold board_get, exchange_cols. cbn [fst snd].
    rewrite list_lookup_fmap. destruct (board !! p.1) as [row|] eqn:Hrow; [|done].
    cbn. apply list_elem_of_lookup_2 in Hrow. specialize (Hrows row Hrow).
    destruct (lookup_lt_is_Some_2 row c1) as [x1 Hx1]; [lia|].
    destruct (lookup_lt_is_Some_2 row c2) as [x2 Hx2]; [lia|].
    unfold g. rewrite Hx1, Hx2. cbn. by apply lookup_exchange.
Qed.

(** Exchanging two rows of a band, or two columns of a stack, maps every
    unit onto a unit. *)
Lemma units_exchange_rows :
  Forall (λ r1, Forall (λ r2, r1 / 3 = r2 / 3 →
    Forall (λ u, Exists (λ u', exchange_rows r1 r2 <$> u ≡ₚ u') units) units)
    (seq 0 9)) (seq 0 9).
Proof. compute_done. Qed.

Lemma units_exchange_cols :
  Forall (λ c1, Forall (λ c2, c1 / 3 = c2 / 3 →
    Forall (λ u, Exists (λ u', exchange_cols c1 c2 <$> u ≡ₚ u') units) units)
    (seq 0 9)) (seq 0 9).
Proof. compute_done. Qed.

Lemma valid_solution_rearranged board board' (σ : Position → Position) :
  well_shaped board' →
  (∀ p, board_get board' p = board_get board (σ p)) →
  Forall (λ u, Exists (λ u', σ <$> u ≡ₚ u') units) units →
  valid_solution board → valid_solution board'.
Proof.
  intros Hwf Hget Hunits [_ Hvalid]. split; [done|].
  rewrite Forall_forall in Hunits, Hvalid. apply Forall_forall.
  intros u Hu. apply Forall_forall. intros d Hd.
  destruct (proj1 (Exists_exists _ _) (Hunits u Hu)) as (u' & Hu' & Hperm).
  specialize (Hvalid u' Hu'). rewrite Forall_forall in Hvalid.
  rewrite <-(Hvalid d Hd). unfold occurrences.
  rewrite <-Hperm, <-list_fmap_compose.
  f_equal. f_equal. apply Forall_fmap_ext_1, Forall_forall.
  intros p _. unfold cell. cbn. by rewrite Hget.
Qed.

Lemma shuffle_step_valid board s :
  shuffle_ok s → valid_solution board →
  ∃ board', shuffle_step board s = Some board' ∧ valid_solution board'.
Proof.
  intros [(Hrb & Hr1 & Hr2) (Hcb & Hc1 & Hc2)] Hvalid. unfold shuffle_step.
  assert (∃ board1, (if rows_coin s
                     then swap_rows board (rows_box s * 3 + (rows_pick s).1)
                            (rows_box s * 3 + (rows_pick s).2)
                     else Some board) = Some board1 ∧ valid_solution board1)
    as (board1 & -> & Hvalid1).
  { destruct (rows_coin s); [|by exists board].
    set (r1 := rows_box s * 3 + (rows_pick s).1).
    set (r2 := rows_box s * 3 + (rows_pick s).2).
    destruct (swap_rows_get board r1 r2) as (board1 & Heq & Hwf & Hget);
      [apply Hvalid|unfold r1; lia|unfold r2; lia|].
    exists board1. split; [done|].
    apply (valid_solution_rearranged board board1 (exchange_rows r1 r2));
      [done..| |done].
    pose proof units_exchange_rows as H. rewrite Forall_forall in H.
    specialize (H r1). rewrite Forall_forall in H.
    apply (H ltac:(apply elem_of_seq; unfold r1; lia) r2
             ltac:(apply elem_of_seq; unfold r2; lia)).
    unfold r1, r2.
    rewrite !(Nat.add_comm (rows_box s * 3)), !Nat.div_add by done.
    rewrite !Nat.div_small by lia. done. }
  cbn [mbind option_bind].
  destruct (cols_coin s); [|by exists board1].
  set (c1 := cols_box s * 3 + (cols_pick s).1).
  set (c2 := cols_box s * 3 + (cols_pick s).2).
  destruct (swap_cols_get board1 c1 c2) as (board2 & Heq & Hwf & Hget);
    [apply Hvalid1|unfold c1; lia|unfold c2; lia|].
  exists board2. split; [done|].
  apply (valid_solution_rearranged board1 board2 (exchange_cols c1 c2));
    [done..| |done].
  pose proof units_exchange_cols as H. rewrite Forall_forall in H.
  specialize (H c1). rewrite Forall_forall in H.
  apply (H ltac:(apply elem_of_seq; unfold c1; lia) c2
           ltac:(apply elem_of_seq; unfold c2; lia)).
  unfold c1, c2.
  rewrite !(Nat.add_comm (cols_box s * 3)), !Nat.div_add by done.
  rewrite !Nat.div_small by lia. done.
Qed.

Lemma shuffle_loop_Done_valid n board shuffles board' :
  Forall shuffle_ok shuffles → valid_solution board →
  shuffle_loop n board shuffles = Done board' → valid_solution board'.
Proof.
  revert board shuffles. induction n as [|n IH]; intros board shuffles Hok Hvalid.
  { by intros [= <-]. }
  destruct shuffles as [|s shuffles]; [done|].
  inversion Hok as [|? ? Hs Hok']; subst. cbn [shuffle_loop].
  destruct (shuffle_step_valid board s Hs Hvalid) as (board1 & -> & Hvalid1).
  by apply IH.
Qed.

(** X15. The shuffle of [generate] (exchanges of two rows of one band and
    of two columns of one stack) turns a valid grid into a valid grid, and
    never indexes outside the board. *)
Theorem shuffle_keeps_solution
    (n : nat) (board : Board) (shuffles : list shuffle) :
  Forall shuffle_ok shuffles → n ≤ length shuffles → valid_solution board →
  ∃ board', shuffle_loop n board shuffles = Done board' ∧ valid_solution board'.
Proof.
  revert board shuffles. induction n as [|n IH]; intros board shuffles Hok Hn Hvalid.
  { by exists board. }
  destruct shuffles as [|s shuffles]; [cbn in Hn; lia|].
  inversion Hok as [|? ? Hs Hok']; subst. cbn [shuffle_loop].
  destruct (shuffle_step_valid board s Hs Hvalid) as (board1 & -> & Hvalid1).
  apply IH; [done|cbn in Hn; lia|done].
Qed.

Lemma shuffle_keeps_solution_witness :
  ∃ board',
    shuffle_loop 2 pre_solved
      [Shuffle true 0 (0, 2) true 2 (1, 0); Shuffle false 0 (0, 0) true 1 (2, 2)]
    = Done board' ∧ valid_solution board'.
Proof.
  apply (shuffle_keeps_solution 2 pre_solved
           [Shuffle true 0 (0, 2) true 2 (1, 0);
            Shuffle false 0 (0, 0) true 1 (2, 2)]); compute_done.
Defined.

(** ** [delete] *)

Lemma argwhere_zero_iff board p :
  well_shaped board → p ∈ argwhere_zero board ↔ board_get board p = Some 0%Z.
Proof.
  intros Hwf. split; [apply elem_of_argwhere_zero|by apply elem_of_argwhere_zero_2].
Qed.

Lemma NoDup_argwhere_zero board : well_shaped board → NoDup (argwhere_zero board).
Proof.
  intros Hwf. unfold argwhere_zero. rewrite indices_well_shaped by done.
  apply NoDup_filter, NoDup_grid.
Qed.

Lemma zeros_increase board p x :
  well_shaped board → board_get board p = Some x → x ≠ 0%Z →
  length (argwhere_zero (board_set board p 0%Z)) = S (length (argwhere_zero board)).
Proof.
  intros Hwf Hp Hx.
  assert (well_shaped (board_set board p 0%Z)) as Hwf' by by apply well_shaped_set.
  assert (argwhere_zero (board_set board p 0%Z) ≡ₚ p :: argwhere_zero board)
    as ->; [|done].
  apply NoDup_Permutation.
  - by apply NoDup_argwhere_zero.
  - constructor; [|by apply NoDup_argwhere_zero].
    rewrite argwhere_zero_iff, Hp by done. by intros [= ->].
  - intros q. rewrite elem_of_cons, !argwhere_zero_iff, board_get_set by done.
    case_decide as Hpq.
    + subst q. rewrite Hp. cbn. naive_solver.
    + naive_solver.
Qed.

Lemma pick_filled_Done board draws p rest :
  pick_filled board draws = Done (p, rest) →
  ∃ x, board_get board p = Some x ∧ x ≠ 0%Z.
Proof.
  induction draws as [|q draws IH]; [done|]. cbn [pick_filled].
  destruct (board_get board q) as [x|] eqn:Hq; [|done].
  case_decide; [done|]. intros [= -> ->]. eauto.
Qed.

Lemma delete_Done draws board size num board' :
  well_shaped board → delete draws board size num = Done board' →
  well_shaped board' ∧
  (∀ q, board_get board' q = board_get board q ∨ board_get board' q = Some 0%Z) ∧
  length (argwhere_zero board') = length (argwhere_zero board) + num.
Proof.
  revert draws board. induction num as [|num IH]; intros draws board Hwf.
  { intros [= <-]. split_and!; [done|by left|lia]. }
  cbn [delete].
  destruct (pick_filled board draws) as [[p rest]| |] eqn:Hpick; [|done..].
  apply pick_filled_Done in Hpick as (x & Hp & Hx). intros Hdel.
  apply IH in Hdel as (Hwf' & Hcells & Hzeros); [|by apply well_shaped_set].
  split_and!; [done| |].
  - intros q. destruct (Hcells q) as [Hq|Hq]; [|by right].
    rewrite Hq, board_get_set. case_decide; [|by left].
    subst q. right. by rewrite Hp.
  - rewrite Hzeros, (zeros_increase board p x) by done. lia.
Qed.

Lemma length_argwhere_zero board :
  well_shaped board → length (argwhere_zero board) ≤ 81.
Proof.
  intros Hwf. unfold argwhere_zero. rewrite indices_well_shaped by done.
  etrans; [apply length_filter|]. done.
Qed.

(** X16. When [delete] returns on a 9x9 board, the board it returns has
    the same shape, every cell is either unchanged or cleared to 0, and
    exactly [num] more cells are empty than before. *)
Theorem delete_clears
    (draws : list Position) (board : Board) (size num : nat) (board' : Board) :
  well_shaped board → delete draws board size num = Done board' →
  well_shaped board' ∧ keeps_clues board' board ∧
  length (argwhere_zero board') = length (argwhere_zero board) + num.
Proof.
  intros Hwf Hdel.
  destruct (delete_Done _ _ _ _ _ Hwf Hdel) as (Hwf' & Hcells & Hzeros).
  split_and!; [done| |done].
  apply Forall_forall. intros q _ Hq. unfold cell in *.
  destruct (Hcells q) as [Heq|Heq]; rewrite Heq in Hq |- *; done.
Qed.

Lemma delete_clears_witness :
  well_shaped three_blanks ∧ keeps_clues three_blanks pre_solved ∧
  length (argwhere_zero three_blanks) = length (argwhere_zero pre_solved) + 3.
Proof.
  apply (delete_clears [(0, 0); (0, 0); (4, 4); (8, 8)] pre_solved 9 3 three_blanks);
    [compute_done|vm_compute; reflexivity].
Defined.

(** X17. Asked to clear more cells than the 9x9 board has filled ones,
    [delete] never returns, whatever the generator draws: after the last
    filled cell is cleared the inner loop draws for ever. *)
Theorem delete_never_returns
    (draws : list Position) (board : Board) (size num : nat) (board' : Board) :
  well_shaped board → 81 < length (argwhere_zero board) + num →
  delete draws board size num ≠ Done board'.
Proof.
  intros Hwf Hnum Hdel.
  destruct (delete_Done _ _ _ _ _ Hwf Hdel) as (Hwf' & _ & Hzeros).
  pose proof (length_argwhere_zero board' Hwf'). lia.
Qed.

Lemma delete_never_returns_witness :
  delete [(0, 0); (1, 1); (0, 0); (2, 2)] dead_end 9 10 ≠ Done dead_end.
Proof.
  apply (delete_never_returns [(0, 0); (1, 1); (0, 0); (2, 2)] dead_end 9 10
           dead_end); [compute_done|vm_compute; lia].
Defined.

(** ** [generate] *)

Lemma valid_solution_values board u :
  valid_solution board → u ∈ units → cell board <$> u ≡ₚ digits.
Proof.
  intros [_ Hvalid] Hu. rewrite Forall_forall in Hvalid.
  specialize (Hvalid u Hu). rewrite Forall_forall in Hvalid.
  pose proof units_shape as Hshape. rewrite Forall_forall in Hshape.
  destruct (Hshape u Hu) as (_ & Hlen & _).
  symmetry. apply submseteq_length_Permutation.
  - apply NoDup_submseteq; [compute_done|]. intros d Hd.
    specialize (Hvalid d Hd). unfold occurrences in Hvalid.
    destruct (filter (λ x, x = d) (cell board <$> u)) as [|x l] eqn:Hf; [done|].
    assert (x ∈ filter (λ x, x = d) (cell board <$> u)) as Hx
      by (rewrite Hf; apply list_elem_of_here).
    apply list_elem_of_filter in Hx as [-> Hx]. done.
  - by rewrite length_fmap, Hlen.
Qed.

Lemma units_cover_rows : Forall (λ p, Exists (λ u, p ∈ u) units) grid.
Proof. compute_done. Qed.

Lemma units_cover_pairs :
  Forall (λ p, Forall (λ q, same_unit p q → Exists (λ u, p ∈ u ∧ q ∈ u) units)
                      grid) grid.
Proof. compute_done. Qed.

Lemma valid_solution_cell board p :
  valid_solution board → in_grid p → cell board p ∈ digits.
Proof.
  intros Hvalid Hp%elem_of_grid.
  pose proof units_cover_rows as Hcover. rewrite Forall_forall in Hcover.
  apply Hcover, Exists_exists in Hp as (u & Hu & Hp).
  rewrite <-(valid_solution_values board u Hvalid Hu).
  by apply list_elem_of_fmap_2.
Qed.

Lemma valid_solution_full board :
  valid_solution board → argwhere_zero board = [].
Proof.
  intros Hvalid. apply elem_of_nil_inv. intros p Hp.
  pose proof (proj1 Hvalid) as Hwf.
  apply elem_of_argwhere_zero in Hp.
  assert (in_grid p) as Hgrid.
  { apply board_get_in_grid with board; [done|by rewrite Hp]. }
  pose proof (valid_solution_cell board p Hvalid Hgrid) as Hd.
  unfold cell in Hd. rewrite Hp in Hd. cbn in Hd.
  assert (0%Z ∉ digits) as Hno by compute_done. by apply Hno.
Qed.

Lemma NoDup_fmap_inj_on {A B} (f : A → B) (l : list A) x y :
  NoDup (f <$> l) → x ∈ l → y ∈ l → f x = f y → x = y.
Proof.
  induction l as [|z l IH]; [by intros _ ?%elem_of_nil|].
  cbn. intros [Hz Hnd]%NoDup_cons [->|Hx]%elem_of_cons [->|Hy]%elem_of_cons Heq.
  - done.
  - exfalso. apply Hz. rewrite Heq. by apply list_elem_of_fmap_2.
  - exfalso. apply Hz. rewrite <-Heq. by apply list_elem_of_fmap_2.
  - by apply IH.
Qed.

Lemma valid_solution_conflict_free board :
  valid_solution board → conflict_free board.
Proof.
  intros Hvalid. apply conflict_free_forall. intros p q Hp Hq Hne Hsame _ Heq.
  apply elem_of_grid in Hp, Hq.
  pose proof units_cover_pairs as Hcover. rewrite Forall_forall in Hcover.
  specialize (Hcover p Hp). rewrite Forall_forall in Hcover.
  apply (Hcover q Hq), Exists_exists in Hsame as (u & Hu & Hpu & Hqu).
  apply Hne. apply (NoDup_fmap_inj_on (cell board) u); [|done..].
  rewrite (valid_solution_values board u Hvalid Hu). compute_done.
Qed.

Lemma conflict_free_cleared puzzle solution :
  keeps_clues puzzle solution → conflict_free solution → conflict_free puzzle.
Proof.
  unfold keeps_clues. rewrite Forall_forall, !conflict_free_forall.
  intros Hkeep Hcf p q Hp Hq Hne Hsame Hnz Heq.
  apply (Hcf p q Hp Hq Hne Hsame).
  - rewrite (Hkeep p); [done|by apply elem_of_grid|done].
  - rewrite (Hkeep p), (Hkeep q); [done|by apply elem_of_grid|congruence|
                                   by apply elem_of_grid|done].
Qed.

(** X18. From a valid grid, the pair that [generate] returns is a puzzle
    with exactly [num] empty cells, conflict-free, together with a valid
    grid that completes it. *)
Theorem generate_pair
    (shuffles : list shuffle) (draws : list Position) (board : Board)
    (size num : nat) (puzzle solution : Board) :
  valid_solution board → Forall shuffle_ok shuffles →
  generate shuffles draws board size num = Done (puzzle, solution) →
  completion puzzle solution ∧ conflict_free puzzle ∧ well_shaped puzzle ∧
  length (argwhere_zero puzzle) = num.
Proof.
  intros Hvalid Hok. unfold generate.
  destruct (shuffle_loop 10 board shuffles) as [shuffled| |] eqn:Hloop; [|done..].
  destruct (delete draws shuffled size num) as [cleared| |] eqn:Hdel; [|done..].
  intros [= <- <-].
  pose proof (shuffle_loop_Done_valid _ _ _ _ Hok Hvalid Hloop) as Hsol.
  destruct (delete_Done _ _ _ _ _ (proj1 Hsol) Hdel) as (Hwf & Hcells & Hzeros).
  assert (keeps_clues cleared shuffled) as Hkeep.
  { apply Forall_forall. intros q _ Hq. unfold cell in *.
    destruct (Hcells q) as [Heq|Heq]; rewrite Heq in Hq |- *; done. }
  split_and!; [by split| |done|].
  - apply conflict_free_cleared with shuffled; [done|].
    by apply valid_solution_conflict_free.
  - by rewrite Hzeros, (valid_solution_full shuffled).
Qed.

Lemma generate_pair_witness :
  completion three_blanks pre_solved ∧ conflict_free three_blanks ∧
  well_shaped three_blanks ∧ length (argwhere_zero three_blanks) = 3.
Proof.
  apply (generate_pair (replicate 10 (Shuffle false 0 (0, 0) true 1 (2, 2)))
           [(0, 0); (0, 0); (4, 4); (8, 8)] pre_solved 9 3
           three_blanks pre_solved); [compute_done..|vm_compute; reflexivity].
Defined.

(** ** The neighbour queries *)

(** X19. [get_box] selects, in the listed order, the listed cells whose
    block coordinates (index divided by 3) are those of the position: the
    cells of the aligned 3x3 block that contains it. A listed position is
    itself in the answer of each of the three neighbour queries. *)
Theorem get_box_block (position : Position) (unassigned : list Position) :
  get_box position unassigned
    = filter (λ u, u.1 / 3 = position.1 / 3 ∧ u.2 / 3 = position.2 / 3)
        unassigned ∧
  (position ∈ unassigned →
   position ∈ get_horizontal position unassigned ∧
   position ∈ get_vertical position unassigned ∧
   position ∈ get_box position unassigned).
Proof.
  assert (get_box position unassigned
          = filter (λ u, u.1 / 3 = position.1 / 3 ∧ u.2 / 3 = position.2 / 3)
              unassigned) as Hbox.
  { unfold get_box. apply list_filter_iff. intros u.
    rewrite !block_origin. naive_solver. }
  split; [done|].
  intros Hin. rewrite Hbox. unfold get_horizontal, get_vertical.
  rewrite !list_elem_of_filter. tauto.
Qed.

(** ** [solve] again *)

(** X20. [solve] on the board it returned with [True] returns that board
    again with [True], without any write. *)
Theorem solve_idempotent (board : Board) :
  well_shaped board → entries_ok board →
  result (solve board) = Solved →
  solve (board_after (solve board))
  = Run [board_after (solve board)] (board_after (solve board)) Solved.
Proof.
  intros Hwf Hent Hres.
  destruct (solve_ends board Hwf Hent) as (_ & _ & _ & Hfull).
  specialize (Hfull Hres). unfold solve at 1. cbn [solve_fuel].
  by rewrite Hfull.
Qed.

Lemma solve_idempotent_witness :
  solve (board_after (solve three_blanks))
  = Run [board_after (solve three_blanks)] (board_after (solve three_blanks))
      Solved.
Proof. apply (solve_idempotent three_blanks); compute_done. Defined.
